(** * rheas-io/queue: the job model, the in-memory queue and the worker

    A shallow embedding of [src/baseJob.ts], [src/baseQueue.ts] and the
    in-memory queue ([MemoryQueue]), followed by the properties of the
    natural-language specification that were checked against them,
    and by further properties read off the code.

    Conventions of the embedding.
    - Jobs are JavaScript objects: the queue's array [_jobs], the worker's
      promises and the caller all hold references to one object.  A job
      is therefore a reference [ref] into a [heap] of records, and
      [Array.prototype.indexOf] compares references.
    - Epoch milliseconds, counters and the concurrency cap are integers
      ([Z]); the argument of [setTimeout] and [retryAfter] is a number of
      seconds that may be fractional and is a rational ([Q]): products are
      exact, [NaN] and the infinities are left out.
    - [Date.now()] is an argument [now] of whatever reads the clock.
    - Code that can throw or that logs an observable call runs in the
      monad [M]: a state, a completion (normal or thrown) and the list
      of events the call produced.
    - What a user-supplied method does ([process], the three outcome
      hooks) is data of the job: a hook returns, throws, or returns a
      promise that is rejected later; the promise of [process] settles
      later, as a stimulus of the worker. *)

From Stdlib Require Import ZArith QArith List Bool Lia Permutation Sorted.
From stdpp Require Import base option list gmap strings.

Local Close Scope Q_scope.
Local Open Scope Z_scope.

(** ** JavaScript numbers used by the queue *)

Module Num.

(** [Math.trunc]: the integral part, rounding towards zero. *)
Definition trunc (x : Q) : Z := Z.quot (Qnum x) (Zpos (Qden x)).

(** Truthiness of a number: every number but zero. *)
Definition truthy (x : Q) : bool := negb (Qeq_bool x 0).

Definition truthyZ (n : Z) : bool := negb (n =? 0).

(** [a || b] on numbers. *)
Definition or_else (a b : Q) : Q := if truthy a then a else b.

Definition or_elseZ (a b : Z) : Z := if truthyZ a then a else b.

End Num.

(** ** Jobs ([src/baseJob.ts]) *)

Definition ref := nat.

Inductive Error : Type :=
| TimedOut                  (* the string 'Timed out!' of processJob *)
| RangeError                (* Invalid array length *)
| TypeError                 (* a method call on a reference that holds no object *)
| UserError (code : nat).   (* whatever user code throws *)

(** What calling a hook of a job does: it returns, it throws, or (the
    hooks of [BaseJob] are [async]) it returns a promise that is
    rejected later.  No caller in the sources looks at what a hook
    returns, so nothing in the sources sees such a rejection. *)
Inductive HookBody : Type :=
| Returns
| Throws (e : Error)
| Rejects (e : Error).

Inductive Hook : Type := OnSuccess | OnFailure | OnPermanentFailure.

Record BaseJob : Type := mkJob {
  _queue : string;
  _maxAttempts : Z;
  _attempts : Z;
  _retryWaitInMillis : Z;
  _lockedAt : Z;
  _availableAt : Z;
  _cancelled : bool;
  onSuccess : HookBody;
  onFailure : HookBody;
  onPermanentFailure : HookBody
}.

(** [new Job(data)] evaluated when the clock shows [now]; the hooks are
    those of the subclass. *)
Definition newJob (now : Z) (hs hf hp : HookBody) : BaseJob :=
  {| _queue := ""; _maxAttempts := 5; _attempts := 0;
     _retryWaitInMillis := 0; _lockedAt := 0; _availableAt := now;
     _cancelled := false;
     onSuccess := hs; onFailure := hf; onPermanentFailure := hp |}.

Definition hook_body (h : Hook) (j : BaseJob) : HookBody :=
  match h with
  | OnSuccess => onSuccess j
  | OnFailure => onFailure j
  | OnPermanentFailure => onPermanentFailure j
  end.

Definition onQueue (queue : string) (j : BaseJob) : BaseJob :=
  {| _queue := queue; _maxAttempts := _maxAttempts j; _attempts := _attempts j;
     _retryWaitInMillis := _retryWaitInMillis j; _lockedAt := _lockedAt j;
     _availableAt := _availableAt j; _cancelled := _cancelled j;
     onSuccess := onSuccess j; onFailure := onFailure j;
     onPermanentFailure := onPermanentFailure j |}.

Definition maxAttempts (attempts : Z) (j : BaseJob) : BaseJob :=
  {| _queue := _queue j; _maxAttempts := attempts; _attempts := _attempts j;
     _retryWaitInMillis := _retryWaitInMillis j; _lockedAt := _lockedAt j;
     _availableAt := _availableAt j; _cancelled := _cancelled j;
     onSuccess := onSuccess j; onFailure := onFailure j;
     onPermanentFailure := onPermanentFailure j |}.

Definition retryAfter (seconds : Q) (j : BaseJob) : BaseJob :=
  {| _queue := _queue j; _maxAttempts := _maxAttempts j; _attempts := _attempts j;
     _retryWaitInMillis := Num.trunc (seconds * 1000)%Q; _lockedAt := _lockedAt j;
     _availableAt := _availableAt j; _cancelled := _cancelled j;
     onSuccess := onSuccess j; onFailure := onFailure j;
     onPermanentFailure := onPermanentFailure j |}.

(** [later(l)] with [l.atTime() = atTime]. *)
Definition later (atTime : Z) (j : BaseJob) : BaseJob :=
  {| _queue := _queue j; _maxAttempts := _maxAttempts j; _attempts := _attempts j;
     _retryWaitInMillis := _retryWaitInMillis j; _lockedAt := _lockedAt j;
     _availableAt := atTime; _cancelled := _cancelled j;
     onSuccess := onSuccess j; onFailure := onFailure j;
     onPermanentFailure := onPermanentFailure j |}.

(** The assignment [this._cancelled = true] of [cancel]. *)
Definition set_cancelled (j : BaseJob) : BaseJob :=
  {| _queue := _queue j; _maxAttempts := _maxAttempts j; _attempts := _attempts j;
     _retryWaitInMillis := _retryWaitInMillis j; _lockedAt := _lockedAt j;
     _availableAt := _availableAt j; _cancelled := true;
     onSuccess := onSuccess j; onFailure := onFailure j;
     onPermanentFailure := onPermanentFailure j |}.

Definition queue (j : BaseJob) : string := _queue j.
Definition attempts (j : BaseJob) : Z := _attempts j.
Definition lockTime (j : BaseJob) : Z := _lockedAt j.
Definition availableAt (j : BaseJob) : Z := _availableAt j.

Definition triedMaxAttempts (j : BaseJob) : bool :=
  attempts j >=? _maxAttempts j.

Definition isStillLocked (now : Z) (j : BaseJob) : bool :=
  now <? _retryWaitInMillis j + _lockedAt j.

Definition isAvailable (now : Z) (j : BaseJob) : bool :=
  now >=? _availableAt j.

Definition isCancelled (j : BaseJob) : bool := _cancelled j.

(** ** The queue object and the worker's state *)

(** The fields of a [MemoryQueue]: those of [BaseQueue] and the array
    [_jobs].  [_pollTimer] is [true] while a poll timer is pending. *)
Record MemoryQueue : Type := mkQueue {
  _name : string;
  _concurrency : Z;
  _pollTimer : bool;
  _pollInterval : Z;
  _jobTimeout : Z;
  _jobs : list ref
}.

(** [new MemoryQueue(name)]. *)
Definition newQueue (name : string) : MemoryQueue :=
  {| _name := name; _concurrency := 2; _pollTimer := false;
     _pollInterval := 100; _jobTimeout := 10000; _jobs := [] |}.

Definition with_jobs (jobs : list ref) (q : MemoryQueue) : MemoryQueue :=
  {| _name := _name q; _concurrency := _concurrency q;
     _pollTimer := _pollTimer q; _pollInterval := _pollInterval q;
     _jobTimeout := _jobTimeout q; _jobs := jobs |}.

Definition with_pollTimer (b : bool) (q : MemoryQueue) : MemoryQueue :=
  {| _name := _name q; _concurrency := _concurrency q;
     _pollTimer := b; _pollInterval := _pollInterval q;
     _jobTimeout := _jobTimeout q; _jobs := _jobs q |}.

(** One call of [processJob] that went as far as [job.process()]: the
    promise [processJob] returns ([t_settled]), the timer
    [processTimeout] ([t_timer]: still pending) and the promise of
    [job.process()] ([t_running]: not yet settled). *)
Record Task : Type := mkTask {
  t_job : ref;
  t_settled : bool;
  t_timer : bool;
  t_running : bool
}.

(** [awaiting] is [Some (first, next)] while [work] is suspended at
    [await Promise.all(jobProcessors)]: the processors of the cycle are
    the tasks from [first] up to, not including, [next]. *)
Record World : Type := mkWorld {
  heap : gmap ref BaseJob;
  memq : MemoryQueue;
  tasks : list Task;
  awaiting : option (nat * nat)
}.

Definition with_heap (h : gmap ref BaseJob) (w : World) : World :=
  {| heap := h; memq := memq w; tasks := tasks w; awaiting := awaiting w |}.

Definition with_memq (q : MemoryQueue) (w : World) : World :=
  {| heap := heap w; memq := q; tasks := tasks w; awaiting := awaiting w |}.

Definition with_tasks (ts : list Task) (w : World) : World :=
  {| heap := heap w; memq := memq w; tasks := ts; awaiting := awaiting w |}.

Definition with_awaiting (b : option (nat * nat)) (w : World) : World :=
  {| heap := heap w; memq := memq w; tasks := tasks w; awaiting := b |}.

(** What an observer of a run sees. *)
Inductive Event : Type :=
| InsertJob (r : ref)
| FailJob (r : ref)
| FailJobForever (r : ref)
| FinishJob (r : ref)
| Raised (h : Hook) (r : ref)       (* the hook was called *)
| Process (r : ref)                 (* [job.process()] was called *)
| SetTimer (r : ref) (ms : Z)       (* the timer of [processJob] *)
| ClearTimer (r : ref)
| SetPollTimer (ms : Z).

Global Instance Hook_eq_dec : EqDecision Hook.
Proof. solve_decision. Defined.

Global Instance Event_eq_dec : EqDecision Event.
Proof. solve_decision. Defined.

(** ** The monad of the embedding *)

Inductive Completion (A : Type) : Type :=
| Normal (a : A)
| Throw (e : Error).
Arguments Normal {A} a.
Arguments Throw {A} e.

Definition M (A : Type) : Type := World -> Completion A * World * list Event.

Definition ret {A} (a : A) : M A := fun w => (Normal a, w, []).

Definition bind {A B} (m : M A) (k : A -> M B) : M B :=
  fun w =>
    match m w with
    | (Normal a, w1, t1) =>
        match k a w1 with
        | (c, w2, t2) => (c, w2, t1 ++ t2)
        end
    | (Throw e, w1, t1) => (Throw e, w1, t1)
    end.

Definition throw {A} (e : Error) : M A := fun w => (Throw e, w, []).

(** [try { m } catch (err) { h err }]. *)
Definition try_catch {A} (m : M A) (h : Error -> M A) : M A :=
  fun w =>
    match m w with
    | (Normal a, w1, t1) => (Normal a, w1, t1)
    | (Throw e, w1, t1) =>
        match h e w1 with
        | (c, w2, t2) => (c, w2, t1 ++ t2)
        end
    end.

Definition emit (ev : Event) : M unit := fun w => (Normal tt, w, [ev]).
Definition get : M World := fun w => (Normal w, w, []).
Definition modify (f : World -> World) : M unit := fun w => (Normal tt, f w, []).

Declare Scope queue_scope.
Delimit Scope queue_scope with queue.
Notation "x <- m ;; k" := (bind m (fun x => k))
  (at level 100, m at next level, right associativity) : queue_scope.
Notation "m ;; k" := (bind m (fun _ => k))
  (at level 100, right associativity) : queue_scope.
Local Open Scope queue_scope.

Definition completion {A} (r : Completion A * World * list Event) : Completion A :=
  fst (fst r).
Definition world {A} (r : Completion A * World * list Event) : World :=
  snd (fst r).
Definition events {A} (r : Completion A * World * list Event) : list Event :=
  snd r.

(** Reading the object behind a reference; a reference that holds no
    object makes the method call throw. *)
Definition deref (r : ref) : M BaseJob :=
  w <- get ;;
  match heap w !! r with
  | Some j => ret j
  | None => throw TypeError
  end.

Fixpoint forEach {A} (f : A -> M unit) (l : list A) : M unit :=
  match l with
  | [] => ret tt
  | x :: l' => f x ;; forEach f l'
  end.

(** ** Arrays *)

(** [Array.prototype.indexOf]: the first index holding the reference,
    or [-1]. *)
Fixpoint indexOf_from (r : ref) (l : list ref) (i : Z) : Z :=
  match l with
  | [] => -1
  | x :: l' => if decide (x = r) then i else indexOf_from r l' (i + 1)
  end.

Definition indexOf (r : ref) (l : list ref) : Z := indexOf_from r l 0.

(** [Array.prototype.splice(start, deleteCount)]: a negative [start]
    counts from the end, and both arguments are clamped to the array. *)
Definition splice (start deleteCount : Z) (l : list ref) : list ref :=
  let len := Z.of_nat (length l) in
  let actualStart :=
    if start <? 0 then Z.max (len + start) 0 else Z.min start len in
  let actualDeleteCount := Z.min (Z.max deleteCount 0) (len - actualStart) in
  take (Z.to_nat actualStart) l
    ++ drop (Z.to_nat (actualStart + actualDeleteCount)) l.

(** The assignment [array.length = n], for [n] up to the current length
    (the only use in the sources; no array is longer than [2^32 - 1], so
    neither is [n]): a negative length throws, any other cuts the array. *)
Definition set_length {A} (n : Z) (l : list A) : M (list A) :=
  if n <? 0 then throw RangeError
  else ret (take (Z.to_nat n) l).

(** [Array.prototype.sort(cmp)]: stable; [x] goes behind an element [y]
    only when [cmp x y > 0]. *)
Fixpoint sort_insert {A} (cmp : A -> A -> Z) (x : A) (l : list A) : list A :=
  match l with
  | [] => [x]
  | y :: l' => if 0 <? cmp x y then y :: sort_insert cmp x l' else x :: l
  end.

Definition sort {A} (cmp : A -> A -> Z) (l : list A) : list A :=
  foldr (sort_insert cmp) [] l.

(** ** The in-memory queue ([MemoryQueue]) *)

Inductive Value : Type := VUndefined | VTrue.

(** A method of a job called through the reference the array holds. *)
Definition at_ref {A} (w : World) (f : BaseJob -> A) (d : A) (r : ref) : A :=
  match heap w !! r with
  | Some j => f j
  | None => d
  end.

Definition jobReadyForProcessing (now : Z) (job : BaseJob) : bool :=
  negb (isStillLocked now job) && isAvailable now job && negb (isCancelled job).

(** The comparator of [getNextJobs]. *)
Definition byAvailableAt (w : World) (job_1 job_2 : ref) : Z :=
  at_ref w availableAt 0 job_1 - at_ref w availableAt 0 job_2.

Definition insert (job : ref) : M Value :=
  emit (InsertJob job) ;;
  modify (fun w => with_memq (with_jobs (_jobs (memq w) ++ [job]) (memq w)) w) ;;
  ret VTrue.

Definition getNextJobs (now : Z) : M (list ref) :=
  w <- get ;;
  let poppedJobs :=
    sort (byAvailableAt w)
         (List.filter (at_ref w (jobReadyForProcessing now) false)
                      (_jobs (memq w))) in
  let concurrency := _concurrency (memq w) in
  if Num.truthyZ concurrency && (Z.of_nat (length poppedJobs) >? concurrency)
  then set_length concurrency poppedJobs
  else ret poppedJobs.

Definition removeJobFromQueue (job : ref) : M unit :=
  modify (fun w =>
    let index := indexOf job (_jobs (memq w)) in
    if negb (index =? 1)
    then with_memq (with_jobs (splice index 1 (_jobs (memq w))) (memq w)) w
    else w).

(** Calling a hook: the call is observable, and the body may throw; a
    promise, rejected or not, is a value the call returns. *)
Definition call (h : Hook) (r : ref) (body : HookBody) : M unit :=
  emit (Raised h r) ;;
  match body with
  | Returns => ret tt
  | Throws e => throw e
  | Rejects e => ret tt
  end.

(** [BaseQueue.raiseEvent]: [try { return event(); } catch (err) {}]. *)
Definition raiseEvent (event : M unit) : M unit :=
  try_catch event (fun _ => ret tt).

Definition failJob (job : ref) : M Value :=
  emit (FailJob job) ;;
  j <- deref job ;;
  raiseEvent (call OnFailure job (onFailure j)) ;;
  ret VTrue.

Definition failJobForever (job : ref) : M Value :=
  emit (FailJobForever job) ;;
  removeJobFromQueue job ;;
  j <- deref job ;;
  raiseEvent (call OnPermanentFailure job (onPermanentFailure j)) ;;
  ret VUndefined.

Definition finishJob (job : ref) : M Value :=
  emit (FinishJob job) ;;
  removeJobFromQueue job ;;
  j <- deref job ;;
  raiseEvent (call OnSuccess job (onSuccess j)) ;;
  ret VTrue.

(** ** The worker ([BaseQueue]) *)

Definition setConcurrency (concurrentJobs : Z) (q : MemoryQueue) : MemoryQueue :=
  {| _name := _name q;
     _concurrency := Num.or_elseZ concurrentJobs (_concurrency q);
     _pollTimer := _pollTimer q; _pollInterval := _pollInterval q;
     _jobTimeout := _jobTimeout q; _jobs := _jobs q |}.

Definition setTimeout (inSeconds : Q) (q : MemoryQueue) : MemoryQueue :=
  {| _name := _name q; _concurrency := _concurrency q;
     _pollTimer := _pollTimer q; _pollInterval := _pollInterval q;
     _jobTimeout :=
       Num.trunc (Num.or_else (inSeconds * 1000)%Q (inject_Z (_jobTimeout q)));
     _jobs := _jobs q |}.

Definition set_settled (t : Task) : Task :=
  {| t_job := t_job t; t_settled := true;
     t_timer := t_timer t; t_running := t_running t |}.

Definition set_timer (b : bool) (t : Task) : Task :=
  {| t_job := t_job t; t_settled := t_settled t;
     t_timer := b; t_running := t_running t |}.

Definition set_running (b : bool) (t : Task) : Task :=
  {| t_job := t_job t; t_settled := t_settled t;
     t_timer := t_timer t; t_running := b |}.

Definition spawn (job : ref) : M unit :=
  modify (fun w => with_tasks (tasks w ++ [mkTask job false true true]) w).

Definition update_task (t : nat) (f : Task -> Task) : M unit :=
  modify (fun w => with_tasks (alter f t (tasks w)) w).

(** The executor of the promise [processJob] creates; it runs at once. *)
Definition executor (job : ref) : M unit :=
  j <- deref job ;;
  if triedMaxAttempts j then
    failJobForever job ;; ret tt
  else if isCancelled j then
    ret tt
  else
    w <- get ;;
    emit (SetTimer job (_jobTimeout (memq w))) ;;
    emit (Process job) ;;
    spawn job.

(** [processJob]: the executor, and the [catch] at the end of the promise
    for what the executor itself throws. *)
Definition processJob (job : ref) : M unit :=
  try_catch (executor job) (fun _ => failJob job ;; ret tt).

(** [reject] and [resolve] of the promise of task [t]: a promise settles
    once; the rejection runs the [catch] that calls [failJob]. *)
Definition reject (t : nat) : M unit :=
  w <- get ;;
  match tasks w !! t with
  | Some tk =>
      if t_settled tk then ret tt
      else update_task t set_settled ;; failJob (t_job tk) ;; ret tt
  | None => ret tt
  end.

Definition resolve (t : nat) : M unit :=
  update_task t set_settled.

Definition schedulePoll : M unit :=
  w <- get ;;
  modify (fun w => with_memq (with_pollTimer true (memq w)) w) ;;
  emit (SetPollTimer (_pollInterval (memq w))).

(** The rest of [work] behind [await Promise.all(jobProcessors)]. *)
Definition resume : M unit :=
  w <- get ;;
  match awaiting w with
  | Some (first, next) =>
      if forallb t_settled (take (next - first) (drop first (tasks w)))
      then modify (with_awaiting None) ;; schedulePoll
      else ret tt
  | None => ret tt
  end.

Definition work (now : Z) : M unit :=
  modify (fun w => with_memq (with_pollTimer false (memq w)) w) ;;
  w0 <- get ;;
  dispatched <-
    try_catch (jobs <- getNextJobs now ;;
               forEach processJob jobs ;;
               ret true)
              (fun _ => ret false) ;;
  if dispatched : bool
  then
    modify (fun w =>
      with_awaiting (Some (length (tasks w0), length (tasks w))) w) ;;
    resume
  else schedulePoll.

(** What the event loop delivers to the worker. *)
Inductive Stimulus : Type :=
| TimerFires (t : nat)                  (* [processTimeout] of task [t] *)
| ProcessResolves (t : nat)             (* [job.process()] fulfilled *)
| ProcessRejects (t : nat) (e : Error)  (* [job.process()] rejected *)
| PollTimerFires (now : Z).

Definition timerFires (t : nat) : M unit :=
  w <- get ;;
  match tasks w !! t with
  | Some tk =>
      if t_timer tk
      then update_task t (set_timer false) ;; reject t
      else ret tt
  | None => ret tt
  end.

Definition processResolves (t : nat) : M unit :=
  w <- get ;;
  match tasks w !! t with
  | Some tk =>
      if t_running tk
      then
        update_task t (set_running false) ;;
        try_catch (finishJob (t_job tk) ;;
                   emit (ClearTimer (t_job tk)) ;;
                   update_task t (set_timer false) ;;
                   resolve t)
                  (fun _ => reject t)
      else ret tt
  | None => ret tt
  end.

Definition processRejects (t : nat) (e : Error) : M unit :=
  w <- get ;;
  match tasks w !! t with
  | Some tk =>
      if t_running tk
      then update_task t (set_running false) ;; reject t
      else ret tt
  | None => ret tt
  end.

Definition deliver (s : Stimulus) : M unit :=
  match s with
  | TimerFires t => timerFires t ;; resume
  | ProcessResolves t => processResolves t ;; resume
  | ProcessRejects t e => processRejects t e ;; resume
  | PollTimerFires now =>
      w <- get ;;
      if _pollTimer (memq w) then work now else ret tt
  end.

(** ** Cancelling a job ([BaseJob.cancel]) *)

(** Modelled from the spec: [cancelJob] of the queue, which [cancel]
    reaches through the queue manager; neither is among the sources.
    The specification has the queue remove the job from active
    consideration: the reference leaves [_jobs]. *)
Definition cancelJob (job : ref) : M unit :=
  modify (fun w =>
    with_memq
      (with_jobs (List.filter (fun r => negb (r =? job)%nat) (_jobs (memq w)))
                 (memq w)) w).

Definition cancel (job : ref) : M unit :=
  j <- deref job ;;
  modify (fun w => with_heap (<[job := set_cancelled j]> (heap w)) w) ;;
  cancelJob job.

(** ** Programs over the queue *)

(** Allocation of a job object: the next free reference. *)
Definition alloc (j : BaseJob) : M ref :=
  w <- get ;;
  let r := fresh (dom (heap w)) in
  modify (with_heap (<[r := j]> (heap w))) ;;
  ret r.

(** A setter of a job called through its reference. *)
Definition update_job (r : ref) (f : BaseJob -> BaseJob) : M unit :=
  j <- deref r ;;
  modify (fun w => with_heap (<[r := f j]> (heap w)) w).

Inductive Op : Type :=
| ONew (now : Z) (hs hf hp : HookBody)
| OOnQueue (r : ref) (name : string)
| OMaxAttempts (r : ref) (n : Z)
| ORetryAfter (r : ref) (seconds : Q)
| OLater (r : ref) (atTime : Z)
| OCancel (r : ref)
| OSetConcurrency (n : Z)
| OSetTimeout (inSeconds : Q)
| OInsert (r : ref)
| OGetNextJobs (now : Z)
| OProcessJob (r : ref)
| OFailJob (r : ref)
| OFailJobForever (r : ref)
| OFinishJob (r : ref)
| OWork (now : Z)
| ODeliver (s : Stimulus).

Definition exec (op : Op) : M unit :=
  match op with
  | ONew now hs hf hp => alloc (newJob now hs hf hp) ;; ret tt
  | OOnQueue r name => update_job r (onQueue name)
  | OMaxAttempts r n => update_job r (maxAttempts n)
  | ORetryAfter r s => update_job r (retryAfter s)
  | OLater r t => update_job r (later t)
  | OCancel r => cancel r
  | OSetConcurrency n => modify (fun w => with_memq (setConcurrency n (memq w)) w)
  | OSetTimeout s => modify (fun w => with_memq (setTimeout s (memq w)) w)
  | OInsert r => insert r ;; ret tt
  | OGetNextJobs now => getNextJobs now ;; ret tt
  | OProcessJob r => processJob r
  | OFailJob r => failJob r ;; ret tt
  | OFailJobForever r => failJobForever r ;; ret tt
  | OFinishJob r => finishJob r ;; ret tt
  | OWork now => work now
  | ODeliver s => deliver s
  end.

(** The operations the specification calls the core. *)
Definition core_op (op : Op) : bool :=
  match op with
  | OInsert _ | OGetNextJobs _ | OProcessJob _ | OFailJob _
  | OFailJobForever _ | OFinishJob _ | OCancel _ | OWork _ | ODeliver _ => true
  | _ => false
  end.

Definition initial (name : string) : World :=
  {| heap := ∅; memq := newQueue name; tasks := []; awaiting := None |}.

(** A run: the operations one after the other, whatever each completes
    with (the caller is the event loop). *)
Fixpoint run (ops : list Op) (w : World) : World * list Event :=
  match ops with
  | [] => (w, [])
  | op :: ops' =>
      let r := exec op w in
      let r' := run ops' (world r) in
      (fst r', events r ++ snd r')
  end.

Inductive reachable : World -> Prop :=
| reachable_initial name : reachable (initial name)
| reachable_step op w : reachable w -> reachable (world (exec op w)).

(** ** Notions the properties are stated with *)

(** The array [removeJobFromQueue] leaves. *)
Definition removed (job : ref) (jobs : list ref) : list ref :=
  if negb (indexOf job jobs =? 1) then splice (indexOf job jobs) 1 jobs else jobs.

(** Eligibility as the specification words it. *)
Definition eligible (now : Z) (job : BaseJob) : bool :=
  isAvailable now job && negb (isStillLocked now job) && negb (isCancelled job).

(** The comparator [(a, b) => key(a) - key(b)], and the order it sorts
    into. *)
Definition by_key {A} (key : A -> Z) (a b : A) : Z := key a - key b.

Definition key_le {A} (key : A -> Z) (a b : A) : Prop := key a <= key b.

(** [hoare P m Q E]: from a world in [P], [m] ends in [Q] when it
    completes normally and in [E] when it throws. *)
Definition hoare {A} (P : World -> Prop) (m : M A)
    (Q : A -> World -> Prop) (E : Error -> World -> Prop) : Prop :=
  forall w, P w ->
    match completion (m w) with
    | Normal a => Q a (world (m w))
    | Throw e => E e (world (m w))
    end.

(** [m] keeps the invariant [I], however it completes. *)
Definition keeps {A} (I : World -> Prop) (m : M A) : Prop :=
  hoare I m (fun _ => I) (fun _ => I).

(** A property of the heap alone. *)
Definition on_heap (H : gmap ref BaseJob -> Prop) : World -> Prop :=
  fun w => H (heap w).

(** No job was ever attempted or locked. *)
Definition never_attempted (h : gmap ref BaseJob) : Prop :=
  forall r j, h !! r = Some j -> _attempts j = 0 /\ _lockedAt j = 0.

(** The job behind [r] is cancelled. *)
Definition is_cancelled (r : ref) (h : gmap ref BaseJob) : Prop :=
  exists j, h !! r = Some j /\ _cancelled j = true.

(** Task [t] is [tk]. *)
Definition has_task (t : nat) (tk : Task) (w : World) : Prop :=
  tasks w !! t = Some tk.

(** The operations that deliver nothing to task [t]. *)
Definition not_for (t : nat) (op : Op) : bool :=
  match op with
  | ODeliver (TimerFires t') => negb (t' =? t)%nat
  | ODeliver (ProcessResolves t') => negb (t' =? t)%nat
  | ODeliver (ProcessRejects t' _) => negb (t' =? t)%nat
  | _ => true
  end.




(** The eligible stored jobs due strictly before the job behind [r]. *)
Definition due_before (w : World) (now : Z) (r : ref) : list ref :=
  List.filter (fun x => at_ref w availableAt 0 x <? at_ref w availableAt 0 r)
    (List.filter (at_ref w (eligible now) false) (_jobs (memq w))).

Definition is_Process (ev : Event) : bool :=
  match ev with Process _ => true | _ => false end.

(** The number of calls of [process()] among the events. *)
Definition processes (evs : list Event) : nat :=
  length (List.filter is_Process evs).

(** The stimuli of the promise of task [t]. *)
Definition for_task (t : nat) (s : Stimulus) : bool :=
  match s with
  | TimerFires t' | ProcessResolves t' | ProcessRejects t' _ => (t' =? t)%nat
  | PollTimerFires _ => false
  end.

(** The outcomes the queue is told: the calls of [failJob] and of
    [finishJob]. *)
Definition is_outcome (ev : Event) : bool :=
  match ev with FailJob _ | FinishJob _ => true | _ => false end.

Definition outcomes (evs : list Event) : list Event :=
  List.filter is_outcome evs.

(** What a stimulus of task [t] makes of the task, and the outcome it
    reports. *)
Inductive task_step (r : ref) (tk tk' : Task) : list Event -> Prop :=
| step_silent :
    t_settled tk' = t_settled tk ->
    (t_settled tk = false -> t_timer tk = false \/ t_running tk = false) ->
    (t_running tk' = true -> t_running tk = true) ->
    task_step r tk tk' []
| step_failed :
    t_settled tk = false -> t_settled tk' = true ->
    (t_running tk' = true -> t_running tk = true) ->
    task_step r tk tk' [FailJob r]
| step_finished :
    t_running tk = true -> t_running tk' = false -> t_settled tk' = true ->
    task_step r tk tk' [FinishJob r].

(** No poll timer is pending while a cycle awaits its job processors. *)
Definition no_poll_while_awaiting (w : World) : Prop :=
  awaiting w = None \/ _pollTimer (memq w) = false.

(** No cycle is awaiting and no poll timer is pending. *)
Definition idle (w : World) : Prop :=
  awaiting w = None /\ _pollTimer (memq w) = false.

(** The operations other than a call of [work] from outside. *)
Definition no_work (op : Op) : bool :=
  match op with OWork _ => false | _ => true end.







(** The jobs whose [process()] was called, in the order of the calls. *)
Definition processed (evs : list Event) : list ref :=
  flat_map (fun ev => match ev with Process r => [r] | _ => [] end) evs.

(** ** Worlds of the examples *)

(** Two jobs created and inserted at [now = 100], with the hooks of
    [BaseJob]. *)
Definition two_jobs : World :=
  fst (run [ONew 100 Returns Returns Returns;
            ONew 100 Returns Returns Returns;
            OInsert 0%nat; OInsert 1%nat] (initial "mail")).

(** Three jobs due at 100, 110 and 95, a cap of 2 and the clock at 100. *)
Definition three_jobs : World :=
  fst (run [ONew 100 Returns Returns Returns; ONew 100 Returns Returns Returns;
            ONew 100 Returns Returns Returns;
            OLater 1%nat 110; OLater 2%nat 95;
            OInsert 0%nat; OInsert 1%nat; OInsert 2%nat] (initial "mail")).


(** A job that ran out of attempts by configuration: [maxAttempts(0)]. *)
Definition exhausted_job : World :=
  fst (run [ONew 100 Returns Returns Returns; OMaxAttempts 0%nat 0;
            OInsert 0%nat] (initial "mail")).

(** One job, inserted and dispatched by a first cycle of the worker at
    [now = 100]: task 0 is its call of [processJob]. *)
Definition one_job_dispatched : World :=
  fst (run [ONew 100 Returns Returns Returns; OInsert 0%nat; OWork 100]
           (initial "mail")).

(** * Properties *)

(** ** Numbers *)







(** ** The setters of the queue *)





(** ** Predicates of a job *)

(** C8, as the code has it: a job that was never attempted
    ([lockedAt = 0]) is not locked exactly when the clock has reached
    its retry wait, read as an epoch time. *)
Theorem isStillLocked_never_attempted (now : Z) (j : BaseJob) :
  lockTime j = 0 ->
  (isStillLocked now j = false <-> _retryWaitInMillis j <= now).
Proof.
  unfold lockTime, isStillLocked. intros ->.
  rewrite Z.add_0_r, Z.ltb_ge. reflexivity.
Qed.

Lemma isStillLocked_never_attempted_witness :
  isStillLocked 1700000000000 (newJob 1700000000000 Returns Returns Returns) = false
  <-> 0 <= 1700000000000.
Proof.
  apply (isStillLocked_never_attempted 1700000000000
           (newJob 1700000000000 Returns Returns Returns)).
  reflexivity.
Defined.

(** C8, the claim as stated fails: a job created now and never attempted,
    with [retryAfter(2000000000)] (seconds), is still locked now. *)
Lemma never_attempted_job_still_locked :
  let j := retryAfter (2000000000 # 1) (newJob 1700000000000 Returns Returns Returns) in
  lockTime j = 0 /\ isStillLocked 1700000000000 j = true.
Proof. split; reflexivity. Qed.


(** ** Removing a job from the array *)

Lemma removeJobFromQueue_run (job : ref) (w : World) :
  removeJobFromQueue job w =
  (Normal tt, with_memq (with_jobs (removed job (_jobs (memq w))) (memq w)) w, []).
Proof.
  unfold removeJobFromQueue, modify, removed.
  destruct (negb (indexOf job (_jobs (memq w)) =? 1)); [reflexivity|].
  destruct w as [h [n c p i t js] ts a]; reflexivity.
Qed.

Lemma removeJobFromQueue_heap (job : ref) (w : World) :
  heap (world (removeJobFromQueue job w)) = heap w.
Proof. rewrite removeJobFromQueue_run. reflexivity. Qed.


Lemma deref_run (r : ref) (j : BaseJob) (w : World) :
  heap w !! r = Some j -> deref r w = (Normal j, w, []).
Proof. intros H. unfold deref, bind, get. rewrite H. reflexivity. Qed.

(** Unfolding the monad down to the state transformer. *)
Ltac unfold_monad :=
  unfold raiseEvent, call, deref, try_catch, bind, emit, modify, get, ret, throw,
    completion, world, events in *.

Lemma finishJob_run (job : ref) (j : BaseJob) (w : World) :
  heap w !! job = Some j ->
  finishJob job w =
  (Normal VTrue, world (removeJobFromQueue job w), [FinishJob job; Raised OnSuccess job]).
Proof.
  intros H. rewrite removeJobFromQueue_run. unfold finishJob.
  unfold bind at 1. cbn [emit]. unfold bind at 1. rewrite removeJobFromQueue_run.
  unfold_monad; simpl. rewrite H. destruct (onSuccess j); reflexivity.
Qed.

Lemma failJobForever_run (job : ref) (j : BaseJob) (w : World) :
  heap w !! job = Some j ->
  failJobForever job w =
  (Normal VUndefined, world (removeJobFromQueue job w),
   [FailJobForever job; Raised OnPermanentFailure job]).
Proof.
  intros H. rewrite removeJobFromQueue_run. unfold failJobForever.
  unfold bind at 1. cbn [emit]. unfold bind at 1. rewrite removeJobFromQueue_run.
  unfold_monad; simpl. rewrite H. destruct (onPermanentFailure j); reflexivity.
Qed.

Lemma failJob_run (job : ref) (j : BaseJob) (w : World) :
  heap w !! job = Some j ->
  failJob job w = (Normal VTrue, w, [FailJob job; Raised OnFailure job]).
Proof.
  intros H. unfold failJob. unfold_monad; simpl. rewrite H.
  destruct (onFailure j); reflexivity.
Qed.

(** The index [indexOf] finds. *)
Lemma indexOf_second (a b : ref) (rest : list ref) :
  a <> b -> indexOf b (a :: b :: rest) = 1.
Proof.
  intros Hab. unfold indexOf; simpl.
  destruct (decide (a = b)) as [E|_]; [contradiction|].
  destruct (decide (b = b)) as [_|N]; [reflexivity | contradiction].
Qed.

Lemma removed_second (a b : ref) (rest : list ref) :
  a <> b -> removed b (a :: b :: rest) = a :: b :: rest.
Proof. intros Hab. unfold removed. rewrite indexOf_second by exact Hab. reflexivity. Qed.

(** C1, where the code goes wrong: [removeJobFromQueue] skips the
    removal when [indexOf] answers 1 (the test is [index != 1]), so
    [finishJob] of the job in the second place of the array calls
    [onSuccess] once, resolves, and leaves the job in the array. *)
Theorem finishJob_keeps_second_job (w : World) (a b : ref) (rest : list ref) (j : BaseJob) :
  a <> b ->
  _jobs (memq w) = a :: b :: rest ->
  heap w !! b = Some j ->
  completion (finishJob b w) = Normal VTrue /\
  _jobs (memq (world (finishJob b w))) = a :: b :: rest /\
  In b (_jobs (memq (world (finishJob b w)))) /\
  events (finishJob b w) = [FinishJob b; Raised OnSuccess b].
Proof.
  intros Hab Hjobs Hj.
  rewrite (finishJob_run b j w Hj), removeJobFromQueue_run; simpl.
  rewrite Hjobs, removed_second by exact Hab.
  repeat split. right; left; reflexivity.
Qed.

Lemma finishJob_keeps_second_job_witness :
  completion (finishJob 1%nat two_jobs) = Normal VTrue /\
  _jobs (memq (world (finishJob 1%nat two_jobs))) = [0%nat; 1%nat] /\
  In 1%nat (_jobs (memq (world (finishJob 1%nat two_jobs)))) /\
  events (finishJob 1%nat two_jobs) = [FinishJob 1%nat; Raised OnSuccess 1%nat].
Proof.
  apply (finishJob_keeps_second_job two_jobs 0%nat 1%nat []
           (newJob 100 Returns Returns Returns)).
  - discriminate.
  - reflexivity.
  - vm_compute. reflexivity.
Defined.


(** ** A program logic for [M] *)

Section Rules.
Context {A B : Type}.
Implicit Types (P : World -> Prop) (E : Error -> World -> Prop).

Lemma hoare_ret P (a : A) (Q : A -> World -> Prop) E :
  (forall w, P w -> Q a w) -> hoare P (ret a) Q E.
Proof. intros H w Hw. apply H, Hw. Qed.

Lemma hoare_throw P (e : Error) (Q : A -> World -> Prop) E :
  (forall w, P w -> E e w) -> hoare P (throw e) Q E.
Proof. intros H w Hw. apply H, Hw. Qed.

Lemma hoare_bind P (m : M A) (k : A -> M B) R (Q : B -> World -> Prop) E :
  hoare P m R E -> (forall a, hoare (R a) (k a) Q E) -> hoare P (bind m k) Q E.
Proof.
  intros Hm Hk w Hw. specialize (Hm w Hw).
  unfold completion, world, bind in *.
  destruct (m w) as [[[a|e] w1] t1]; simpl in *; [|exact Hm].
  specialize (Hk a w1 Hm). unfold completion, world in Hk.
  destruct (k a w1) as [[c w2] t2]; exact Hk.
Qed.

Lemma hoare_try_catch P (m : M A) (h : Error -> M A) (Q : A -> World -> Prop) E' E :
  hoare P m Q E' -> (forall e, hoare (E' e) (h e) Q E) ->
  hoare P (try_catch m h) Q E.
Proof.
  intros Hm Hh w Hw. specialize (Hm w Hw).
  unfold completion, world, try_catch in *.
  destruct (m w) as [[[a|e] w1] t1]; simpl in *; [exact Hm|].
  specialize (Hh e w1 Hm). unfold completion, world in Hh.
  destruct (h e w1) as [[c w2] t2]; exact Hh.
Qed.

Lemma hoare_weaken P P' (m : M A) (Q Q' : A -> World -> Prop) E E' :
  hoare P' m Q' E' ->
  (forall w, P w -> P' w) ->
  (forall a w, Q' a w -> Q a w) ->
  (forall e w, E' e w -> E e w) ->
  hoare P m Q E.
Proof.
  intros H HP HQ HE w Hw. specialize (H w (HP w Hw)).
  destruct (completion (m w)); auto.
Qed.
End Rules.

Lemma hoare_emit P (ev : Event) (Q : unit -> World -> Prop) E :
  (forall w, P w -> Q tt w) -> hoare P (emit ev) Q E.
Proof. intros H w Hw. apply H, Hw. Qed.

Lemma hoare_get P (Q : World -> World -> Prop) E :
  (forall w, P w -> Q w w) -> hoare P get Q E.
Proof. intros H w Hw. apply H, Hw. Qed.

Lemma hoare_modify P (f : World -> World) (Q : unit -> World -> Prop) E :
  (forall w, P w -> Q tt (f w)) -> hoare P (modify f) Q E.
Proof. intros H w Hw. apply H, Hw. Qed.

(** Reading the state and going on with what was read. *)
Lemma hoare_bind_get {B} P (k : World -> M B) (Q : B -> World -> Prop) E :
  (forall w0, P w0 -> hoare (fun w => w = w0 /\ P w) (k w0) Q E) ->
  hoare P (bind get k) Q E.
Proof.
  intros H w Hw. specialize (H w Hw w (conj eq_refl Hw)).
  unfold completion, world, bind, get in *; simpl.
  destruct (k w w) as [[c w2] t2]. exact H.
Qed.

Lemma keeps_ret {A} I (a : A) : keeps I (ret a).
Proof. apply hoare_ret; auto. Qed.

Lemma keeps_throw {A} I (e : Error) : keeps I (throw (A := A) e).
Proof. apply hoare_throw; auto. Qed.

Lemma keeps_emit I (ev : Event) : keeps I (emit ev).
Proof. apply hoare_emit; auto. Qed.

Lemma keeps_get I : keeps I get.
Proof. apply hoare_get; auto. Qed.

Lemma keeps_modify I (f : World -> World) :
  (forall w, I w -> I (f w)) -> keeps I (modify f).
Proof. intros H. apply hoare_modify; auto. Qed.

Lemma keeps_bind {A B} I (m : M A) (k : A -> M B) :
  keeps I m -> (forall a, keeps I (k a)) -> keeps I (bind m k).
Proof. intros Hm Hk. eapply hoare_bind; [exact Hm | exact Hk]. Qed.

Lemma keeps_try_catch {A} I (m : M A) (h : Error -> M A) :
  keeps I m -> (forall e, keeps I (h e)) -> keeps I (try_catch m h).
Proof. intros Hm Hh. eapply hoare_try_catch; [exact Hm | exact Hh]. Qed.

Lemma keeps_forEach {A} I (f : A -> M unit) (l : list A) :
  (forall x, keeps I (f x)) -> keeps I (forEach f l).
Proof.
  intros Hf. induction l as [|x l IH]; simpl.
  - apply keeps_ret.
  - apply keeps_bind; [apply Hf | intros _; exact IH].
Qed.


(** The invariant after the call. *)
Lemma keeps_world {A} I (m : M A) (w : World) : keeps I m -> I w -> I (world (m w)).
Proof.
  intros H Hw. specialize (H w Hw). destruct (completion (m w)); exact H.
Qed.

(** Splitting a program along its structure. *)
Ltac keeps_step :=
  match goal with
  | |- forall _, _ => intro
  | |- keeps _ (bind _ _) => apply keeps_bind
  | |- keeps _ (try_catch _ _) => apply keeps_try_catch
  | |- keeps _ (forEach _ _) => apply keeps_forEach
  | |- keeps _ (ret _) => apply keeps_ret
  | |- keeps _ (throw _) => apply keeps_throw
  | |- keeps _ (emit _) => apply keeps_emit
  | |- keeps _ get => apply keeps_get
  | |- keeps _ (match ?x with _ => _ end) => destruct x
  end.

(** ** What the queue does to the heap of jobs *)

Section HeapFixed.
Variable H : gmap ref BaseJob -> Prop.

Lemma keeps_heap_modify (f : World -> World) :
  (forall w, heap (f w) = heap w) -> keeps (on_heap H) (modify f).
Proof.
  intros Hf. apply keeps_modify. unfold on_heap. intros w Hw.
  rewrite Hf. exact Hw.
Qed.

Ltac heap_fixed :=
  repeat first
    [ keeps_step
    | match goal with
      | |- keeps _ (modify _) => apply keeps_heap_modify; intros w; reflexivity
      end ].

Lemma keeps_heap_set_length {A} (n : Z) (l : list A) :
  keeps (on_heap H) (set_length n l).
Proof. unfold set_length. heap_fixed. Qed.

Lemma keeps_heap_deref (r : ref) : keeps (on_heap H) (deref r).
Proof. unfold deref. heap_fixed. Qed.

Lemma keeps_heap_insert (r : ref) : keeps (on_heap H) (insert r).
Proof. unfold insert. heap_fixed. Qed.

Lemma keeps_heap_getNextJobs (now : Z) : keeps (on_heap H) (getNextJobs now).
Proof. unfold getNextJobs. heap_fixed. apply keeps_heap_set_length. Qed.

Lemma keeps_heap_removeJobFromQueue (r : ref) :
  keeps (on_heap H) (removeJobFromQueue r).
Proof.
  unfold removeJobFromQueue. apply keeps_heap_modify. intros w.
  destruct (negb _); reflexivity.
Qed.

Lemma keeps_heap_raiseEvent (h : Hook) (r : ref) (body : HookBody) :
  keeps (on_heap H) (raiseEvent (call h r body)).
Proof. unfold raiseEvent, call. heap_fixed. Qed.

Lemma keeps_heap_failJob (r : ref) : keeps (on_heap H) (failJob r).
Proof.
  unfold failJob. heap_fixed;
    auto using keeps_heap_deref, keeps_heap_raiseEvent.
Qed.

Lemma keeps_heap_failJobForever (r : ref) : keeps (on_heap H) (failJobForever r).
Proof.
  unfold failJobForever. heap_fixed;
    auto using keeps_heap_deref, keeps_heap_raiseEvent,
      keeps_heap_removeJobFromQueue.
Qed.

Lemma keeps_heap_finishJob (r : ref) : keeps (on_heap H) (finishJob r).
Proof.
  unfold finishJob. heap_fixed;
    auto using keeps_heap_deref, keeps_heap_raiseEvent,
      keeps_heap_removeJobFromQueue.
Qed.

Lemma keeps_heap_executor (r : ref) : keeps (on_heap H) (executor r).
Proof.
  unfold executor, spawn. heap_fixed;
    auto using keeps_heap_deref, keeps_heap_failJobForever.
Qed.

Lemma keeps_heap_processJob (r : ref) : keeps (on_heap H) (processJob r).
Proof.
  unfold processJob. heap_fixed;
    auto using keeps_heap_executor, keeps_heap_failJob.
Qed.

Lemma keeps_heap_update_task (t : nat) (f : Task -> Task) :
  keeps (on_heap H) (update_task t f).
Proof. unfold update_task. heap_fixed. Qed.

Lemma keeps_heap_reject (t : nat) : keeps (on_heap H) (reject t).
Proof.
  unfold reject. heap_fixed;
    auto using keeps_heap_update_task, keeps_heap_failJob.
Qed.

Lemma keeps_heap_schedulePoll : keeps (on_heap H) schedulePoll.
Proof. unfold schedulePoll. heap_fixed. Qed.

Lemma keeps_heap_resume : keeps (on_heap H) resume.
Proof. unfold resume. heap_fixed; auto using keeps_heap_schedulePoll. Qed.

Lemma keeps_heap_work (now : Z) : keeps (on_heap H) (work now).
Proof.
  unfold work. heap_fixed;
    auto using keeps_heap_getNextJobs, keeps_heap_processJob,
      keeps_heap_resume, keeps_heap_schedulePoll.
Qed.

Lemma keeps_heap_deliver (s : Stimulus) : keeps (on_heap H) (deliver s).
Proof.
  destruct s; simpl;
    unfold timerFires, processResolves, processRejects, resolve;
    heap_fixed;
    auto using keeps_heap_update_task, keeps_heap_reject, keeps_heap_finishJob,
      keeps_heap_resume, keeps_heap_work.
Qed.

Lemma keeps_heap_cancelJob (r : ref) : keeps (on_heap H) (cancelJob r).
Proof. unfold cancelJob. heap_fixed. Qed.
End HeapFixed.

Lemma hoare_deref (P : World -> Prop) (r : ref) :
  hoare P (deref r) (fun j w => P w /\ heap w !! r = Some j) (fun _ => P).
Proof.
  intros w Hw. unfold deref, completion, world, bind, get; simpl.
  destruct (heap w !! r) eqn:E; simpl; auto.
Qed.

(** A setter of a job changes the heap at the job's reference only. *)
Lemma keeps_heap_update_job (H : gmap ref BaseJob -> Prop) (r : ref)
    (f : BaseJob -> BaseJob) :
  (forall h j, H h -> h !! r = Some j -> H (<[r := f j]> h)) ->
  keeps (on_heap H) (update_job r f).
Proof.
  intros Hf. unfold update_job.
  eapply hoare_bind; [apply hoare_deref|].
  intros j. apply hoare_modify. intros w [Hw Hj]. apply Hf; assumption.
Qed.

Lemma keeps_heap_cancel (H : gmap ref BaseJob -> Prop) (r : ref) :
  (forall h j, H h -> h !! r = Some j -> H (<[r := set_cancelled j]> h)) ->
  keeps (on_heap H) (cancel r).
Proof.
  intros Hf. unfold cancel.
  eapply hoare_bind; [apply hoare_deref|].
  intros j. eapply hoare_bind.
  - apply hoare_modify with (Q := fun _ => on_heap H).
    intros w [Hw Hj]. apply Hf; assumption.
  - intros u. apply keeps_heap_cancelJob.
Qed.

Lemma keeps_heap_alloc (H : gmap ref BaseJob -> Prop) (j : BaseJob) :
  (forall h r, H h -> h !! r = None -> H (<[r := j]> h)) ->
  keeps (on_heap H) (alloc j).
Proof.
  intros Hf. unfold alloc. apply hoare_bind_get. intros w0 _.
  eapply hoare_bind.
  - apply hoare_modify with (Q := fun _ => on_heap H).
    intros w [Ew Hw]. subst w. apply Hf; [exact Hw|].
    apply not_elem_of_dom, is_fresh.
  - intros u. apply keeps_ret.
Qed.

(** The operations of the core change no field of a job but
    [_cancelled]. *)
Lemma core_op_keeps_heap (H : gmap ref BaseJob -> Prop) (op : Op) :
  (forall h r j, H h -> h !! r = Some j -> H (<[r := set_cancelled j]> h)) ->
  core_op op = true ->
  keeps (on_heap H) (exec op).
Proof.
  intros Hc Hop. destruct op; try discriminate Hop; simpl.
  - apply keeps_heap_cancel. intros h j. apply Hc.
  - apply keeps_bind; [apply keeps_heap_insert | intros; apply keeps_ret].
  - apply keeps_bind; [apply keeps_heap_getNextJobs | intros; apply keeps_ret].
  - apply keeps_heap_processJob.
  - apply keeps_bind; [apply keeps_heap_failJob | intros; apply keeps_ret].
  - apply keeps_bind; [apply keeps_heap_failJobForever | intros; apply keeps_ret].
  - apply keeps_bind; [apply keeps_heap_finishJob | intros; apply keeps_ret].
  - apply keeps_heap_work.
  - apply keeps_heap_deliver.
Qed.

Lemma never_attempted_insert (h : gmap ref BaseJob) (r : ref) (j : BaseJob) :
  never_attempted h -> _attempts j = 0 -> _lockedAt j = 0 ->
  never_attempted (<[r := j]> h).
Proof.
  intros Hh Ha Hl r' j'. rewrite lookup_insert.
  case_decide.
  - intros [= <-]. split; assumption.
  - apply Hh.
Qed.

Lemma exec_keeps_never_attempted (op : Op) :
  keeps (on_heap never_attempted) (exec op).
Proof.
  assert (Hset : forall (f : BaseJob -> BaseJob),
             (forall j, _attempts (f j) = _attempts j /\ _lockedAt (f j) = _lockedAt j) ->
             forall h r j, never_attempted h -> h !! r = Some j ->
                           never_attempted (<[r := f j]> h)).
  { intros f Hf h r j Hh Hj. destruct (Hf j) as [Ha Hl], (Hh r j Hj) as [Ha0 Hl0].
    apply never_attempted_insert; [exact Hh | congruence | congruence]. }
  destruct (core_op op) eqn:Hop.
  - apply core_op_keeps_heap; [|exact Hop].
    apply (Hset set_cancelled). intros j; split; reflexivity.
  - destruct op; try discriminate Hop; simpl.
    + apply keeps_bind; [|intros; apply keeps_ret].
      apply keeps_heap_alloc. intros h r Hh _.
      apply never_attempted_insert; [exact Hh | reflexivity | reflexivity].
    + apply keeps_heap_update_job. intros h j.
      apply (Hset (onQueue name)). intros j0; split; reflexivity.
    + apply keeps_heap_update_job. intros h j.
      apply (Hset (maxAttempts n)). intros j0; split; reflexivity.
    + apply keeps_heap_update_job. intros h j.
      apply (Hset (retryAfter seconds)). intros j0; split; reflexivity.
    + apply keeps_heap_update_job. intros h j.
      apply (Hset (later atTime)). intros j0; split; reflexivity.
    + apply keeps_heap_modify. reflexivity.
    + apply keeps_heap_modify. reflexivity.
Qed.

Lemma reachable_never_attempted (w : World) :
  reachable w -> never_attempted (heap w).
Proof.
  induction 1 as [name | op w _ IH].
  - intros r j. simpl. rewrite lookup_empty. discriminate.
  - exact (keeps_world _ _ _ (exec_keeps_never_attempted op) IH).
Qed.

(** C7: in every state the programs over the queue can reach, every job
    has [attempts = 0] and [lockedAt = 0]; the retry wait is therefore
    measured from 0, and an operation of the core (insert, getNextJobs,
    processJob, failJob, failJobForever, finishJob, cancel, and the
    worker's cycle and its continuations) leaves the job with the same
    two fields and the same answer of [triedMaxAttempts]. *)
Theorem attempts_and_lockedAt_stay_zero (w : World) (r : ref) (j : BaseJob) :
  reachable w ->
  heap w !! r = Some j ->
  attempts j = 0 /\ lockTime j = 0 /\
  (forall now, isStillLocked now j = (now <? _retryWaitInMillis j + 0)) /\
  (forall op, core_op op = true ->
     exists j', heap (world (exec op w)) !! r = Some j' /\
                attempts j' = 0 /\ lockTime j' = 0 /\
                triedMaxAttempts j' = triedMaxAttempts j).
Proof.
  intros Hw Hj.
  destruct (reachable_never_attempted w Hw r j Hj) as [Ha Hl].
  split; [exact Ha | split; [exact Hl | split]].
  - intros now. unfold isStillLocked. rewrite Hl. reflexivity.
  - intros op Hop.
    pose (H := fun h : gmap ref BaseJob =>
                 exists j', h !! r = Some j' /\ _attempts j' = _attempts j /\
                            _lockedAt j' = _lockedAt j /\
                            _maxAttempts j' = _maxAttempts j).
    assert (Hk : keeps (on_heap H) (exec op)).
    { apply core_op_keeps_heap; [|exact Hop].
      intros h r0 j0 (j' & Hj' & Ha' & Hl' & Hm') Hj0. unfold H.
      rewrite lookup_insert. case_decide as Hr.
      - subst r0. rewrite Hj' in Hj0. injection Hj0 as <-.
        exists (set_cancelled j'). simpl. auto.
      - exists j'. auto. }
    destruct (keeps_world _ _ w Hk) as (j' & Hj' & Ha' & Hl' & Hm').
    { exists j. auto. }
    exists j'. unfold attempts, lockTime, triedMaxAttempts, attempts.
    rewrite Ha', Hl', Hm'. auto.
Qed.

(** An invariant of every operation is one of every run. *)
Lemma run_keeps (I : World -> Prop) (ops : list Op) (w : World) :
  (forall op, keeps I (exec op)) -> I w -> I (fst (run ops w)).
Proof.
  intros Hk. revert w. induction ops as [|op ops IH]; intros w Hw; simpl.
  - exact Hw.
  - apply IH. exact (keeps_world I (exec op) w (Hk op) Hw).
Qed.

Lemma reachable_run (ops : list Op) (w : World) :
  reachable w -> reachable (fst (run ops w)).
Proof.
  revert w. induction ops as [|op ops IH]; intros w Hw; simpl.
  - exact Hw.
  - apply IH. constructor. exact Hw.
Qed.

Lemma attempts_and_lockedAt_stay_zero_witness :
  let j := newJob 100 Returns Returns Returns in
  attempts j = 0 /\ lockTime j = 0 /\
  (forall now, isStillLocked now j = (now <? _retryWaitInMillis j + 0)) /\
  (forall op, core_op op = true ->
     exists j', heap (world (exec op two_jobs)) !! 1%nat = Some j' /\
                attempts j' = 0 /\ lockTime j' = 0 /\
                triedMaxAttempts j' = triedMaxAttempts j).
Proof.
  apply (attempts_and_lockedAt_stay_zero two_jobs 1%nat
           (newJob 100 Returns Returns Returns)).
  - apply reachable_run. constructor.
  - vm_compute. reflexivity.
Defined.

(** ** References held by the worker *)






















(** ** Calls that cannot throw *)





















(** ** One call of [processJob], step by step *)

Lemma triedMaxAttempts_true (j : BaseJob) :
  triedMaxAttempts j = true <-> attempts j >= _maxAttempts j.
Proof. unfold triedMaxAttempts. rewrite Z.geb_le. lia. Qed.

Lemma executor_exhausted (w : World) (r : ref) (j : BaseJob) :
  heap w !! r = Some j -> triedMaxAttempts j = true ->
  executor r w =
  (Normal tt, world (removeJobFromQueue r w),
   [FailJobForever r; Raised OnPermanentFailure r]).
Proof.
  intros Hj Ht. unfold executor. unfold bind at 1.
  rewrite (deref_run r j w Hj), Ht. unfold bind.
  rewrite (failJobForever_run r j w Hj). reflexivity.
Qed.

(** C4: a job with [attempts >= maxAttempts] handed to [processJob]
    goes to [failJobForever] and nowhere else: the events of the call
    are those of [failJobForever], [process()] is not called, no timer
    is set, and no task is left behind that could do either later. *)
Theorem processJob_exhausted (w : World) (r : ref) (j : BaseJob) :
  heap w !! r = Some j ->
  attempts j >= _maxAttempts j ->
  completion (processJob r w) = Normal tt /\
  world (processJob r w) = world (failJobForever r w) /\
  events (processJob r w) = events (failJobForever r w) /\
  events (processJob r w) = [FailJobForever r; Raised OnPermanentFailure r] /\
  ~ In (Process r) (events (processJob r w)) /\
  (forall ms, ~ In (SetTimer r ms) (events (processJob r w))) /\
  tasks (world (processJob r w)) = tasks w.
Proof.
  intros Hj Ht. apply triedMaxAttempts_true in Ht.
  unfold processJob, try_catch.
  rewrite (executor_exhausted w r j Hj Ht), (failJobForever_run r j w Hj).
  rewrite removeJobFromQueue_run. simpl.
  repeat split.
  - intros [H|[H|[]]]; discriminate H.
  - intros ms [H|[H|[]]]; discriminate H.
Qed.

Lemma processJob_exhausted_witness :
  completion (processJob 0%nat exhausted_job) = Normal tt /\
  world (processJob 0%nat exhausted_job) = world (failJobForever 0%nat exhausted_job) /\
  events (processJob 0%nat exhausted_job) = events (failJobForever 0%nat exhausted_job) /\
  events (processJob 0%nat exhausted_job)
    = [FailJobForever 0%nat; Raised OnPermanentFailure 0%nat] /\
  ~ In (Process 0%nat) (events (processJob 0%nat exhausted_job)) /\
  (forall ms, ~ In (SetTimer 0%nat ms) (events (processJob 0%nat exhausted_job))) /\
  tasks (world (processJob 0%nat exhausted_job)) = tasks exhausted_job.
Proof.
  apply (processJob_exhausted exhausted_job 0%nat
           (maxAttempts 0 (newJob 100 Returns Returns Returns))).
  - vm_compute. reflexivity.
  - vm_compute. discriminate.
Defined.

Lemma reject_run (w : World) (t : nat) (tk : Task) (j : BaseJob) :
  tasks w !! t = Some tk -> t_settled tk = false ->
  heap w !! t_job tk = Some j ->
  reject t w =
  (Normal tt, with_tasks (alter set_settled t (tasks w)) w,
   [FailJob (t_job tk); Raised OnFailure (t_job tk)]).
Proof.
  intros Ht Hs Hj. unfold reject. unfold bind at 1, get.
  rewrite Ht, Hs. unfold bind at 1, update_task, modify.
  unfold bind.
  rewrite (failJob_run (t_job tk) j (with_tasks _ w) Hj). reflexivity.
Qed.

Lemma reject_settled (w : World) (t : nat) (tk : Task) :
  tasks w !! t = Some tk -> t_settled tk = true ->
  reject t w = (Normal tt, w, []).
Proof.
  intros Ht Hs. unfold reject, bind, get. rewrite Ht, Hs. reflexivity.
Qed.

(** The timer fires on a promise not yet settled. *)
Lemma timerFires_run (w : World) (t : nat) (tk : Task) (j : BaseJob) :
  tasks w !! t = Some tk -> t_timer tk = true -> t_settled tk = false ->
  heap w !! t_job tk = Some j ->
  timerFires t w =
  (Normal tt,
   with_tasks (alter set_settled t (alter (set_timer false) t (tasks w))) w,
   [FailJob (t_job tk); Raised OnFailure (t_job tk)]).
Proof.
  intros Ht Htm Hs Hj. unfold timerFires. unfold bind at 1, get.
  rewrite Ht, Htm. unfold bind, update_task at 1, modify at 1.
  erewrite (reject_run _ t (set_timer false tk) j).
  - reflexivity.
  - simpl. rewrite list_lookup_alter_eq, Ht. reflexivity.
  - exact Hs.
  - exact Hj.
Qed.

(** [job.process()] is fulfilled, whatever became of the promise of
    [processJob] in the meantime. *)
Lemma processResolves_run (w : World) (t : nat) (tk : Task) (j : BaseJob) :
  tasks w !! t = Some tk -> t_running tk = true ->
  heap w !! t_job tk = Some j ->
  processResolves t w =
  (Normal tt,
   with_tasks
     (alter set_settled t
        (alter (set_timer false) t (alter (set_running false) t (tasks w))))
     (with_memq (with_jobs (removed (t_job tk) (_jobs (memq w))) (memq w)) w),
   [FinishJob (t_job tk); Raised OnSuccess (t_job tk); ClearTimer (t_job tk)]).
Proof.
  intros Ht Hr Hj. unfold processResolves. unfold bind at 1, get.
  rewrite Ht, Hr. unfold bind at 1, update_task at 1, modify at 1.
  unfold try_catch, bind at 1.
  rewrite (finishJob_run (t_job tk) j (with_tasks _ w) Hj).
  rewrite removeJobFromQueue_run. reflexivity.
Qed.

Lemma executor_run (w : World) (r : ref) (j : BaseJob) :
  heap w !! r = Some j -> triedMaxAttempts j = false -> isCancelled j = false ->
  executor r w =
  (Normal tt, with_tasks (tasks w ++ [mkTask r false true true]) w,
   [SetTimer r (_jobTimeout (memq w)); Process r]).
Proof.
  intros Hj Ht Hc. unfold executor. unfold bind at 1.
  rewrite (deref_run r j w Hj), Ht, Hc. reflexivity.
Qed.

Lemma executor_cancelled (w : World) (r : ref) (j : BaseJob) :
  heap w !! r = Some j -> triedMaxAttempts j = false -> isCancelled j = true ->
  executor r w = (Normal tt, w, []).
Proof.
  intros Hj Ht Hc. unfold executor. unfold bind at 1.
  rewrite (deref_run r j w Hj), Ht, Hc. reflexivity.
Qed.

(** ** Attempts are not counted *)

Lemma processJob_without_attempts (w : World) (r : ref) (j : BaseJob) :
  heap w !! r = Some j -> _attempts j = 0 -> 1 <= _maxAttempts j ->
  ~ In (FailJobForever r) (events (processJob r w)).
Proof.
  intros Hj Ha Hm.
  assert (Ht : triedMaxAttempts j = false).
  { unfold triedMaxAttempts, attempts. rewrite Ha.
    destruct (0 >=? _maxAttempts j) eqn:E; [|reflexivity].
    apply Z.geb_le in E. lia. }
  unfold processJob, try_catch.
  destruct (isCancelled j) eqn:Hc.
  - rewrite (executor_cancelled w r j Hj Ht Hc). simpl. tauto.
  - rewrite (executor_run w r j Hj Ht Hc). simpl.
    intros [H|[H|[]]]; discriminate H.
Qed.

(** X7: in the states the programs can reach, [processJob] never sends
    a job that allows at least one attempt to [failJobForever]. *)
Theorem processJob_never_fails_forever (w : World) (r : ref) (j : BaseJob) :
  reachable w -> heap w !! r = Some j -> 1 <= _maxAttempts j ->
  ~ In (FailJobForever r) (events (processJob r w)).
Proof.
  intros Hw Hj Hm.
  destruct (reachable_never_attempted w Hw r j Hj) as [Ha _].
  exact (processJob_without_attempts w r j Hj Ha Hm).
Qed.

Lemma processJob_never_fails_forever_witness :
  ~ In (FailJobForever 1%nat) (events (processJob 1%nat two_jobs)).
Proof.
  apply (processJob_never_fails_forever two_jobs 1%nat
           (newJob 100 Returns Returns Returns)).
  - apply reachable_run. constructor.
  - vm_compute. reflexivity.
  - vm_compute. discriminate.
Defined.

Lemma processRejects_run (w : World) (t : nat) (tk : Task) (j : BaseJob) (e : Error) :
  tasks w !! t = Some tk -> t_running tk = true -> t_settled tk = false ->
  heap w !! t_job tk = Some j ->
  processRejects t e w =
  (Normal tt,
   with_tasks (alter set_settled t (alter (set_running false) t (tasks w))) w,
   [FailJob (t_job tk); Raised OnFailure (t_job tk)]).
Proof.
  intros Ht Hr Hs Hj. unfold processRejects. unfold bind at 1, get.
  rewrite Ht, Hr. unfold bind, update_task at 1, modify at 1.
  erewrite (reject_run _ t (set_running false tk) j).
  - reflexivity.
  - simpl. rewrite list_lookup_alter_eq, Ht. reflexivity.
  - exact Hs.
  - exact Hj.
Qed.

Lemma processJob_run (w : World) (r : ref) (j : BaseJob) :
  heap w !! r = Some j -> triedMaxAttempts j = false -> isCancelled j = false ->
  processJob r w =
  (Normal tt, with_tasks (tasks w ++ [mkTask r false true true]) w,
   [SetTimer r (_jobTimeout (memq w)); Process r]).
Proof.
  intros Hj Ht Hc. unfold processJob, try_catch.
  rewrite (executor_run w r j Hj Ht Hc). reflexivity.
Qed.

(** C6, where the code goes wrong: nothing counts attempts.  In a state
    the programs can reach, take a job with [maxAttempts(1)]: it has
    [attempts = 0], so [processJob] sets the timer and calls
    [process()]; when [process()] rejects, [failJob] is called and the
    job is what it was, [attempts = 0] included; the next [processJob]
    therefore sets a timer and calls [process()] again, where the
    specification has it call [failJobForever]; and so does every later
    [processJob] of the job, whatever ran in between ([ops]), as long as
    the job allows an attempt. *)
Theorem single_attempt_job_is_retried (w : World) (r : ref) (j : BaseJob) (e : Error)
    (ops : list Op) :
  reachable w ->
  heap w !! r = Some j ->
  _maxAttempts j = 1 ->
  isCancelled j = false ->
  let t := length (tasks w) in
  let w1 := world (processJob r w) in
  let w2 := world (processRejects t e w1) in
  attempts j = 0 /\
  events (processJob r w) = [SetTimer r (_jobTimeout (memq w)); Process r] /\
  events (processRejects t e w1) = [FailJob r; Raised OnFailure r] /\
  heap w2 !! r = Some j /\
  _jobs (memq w2) = _jobs (memq w) /\
  events (processJob r w2) = [SetTimer r (_jobTimeout (memq w)); Process r] /\
  ~ In (FailJobForever r) (events (processJob r w2)) /\
  (forall j3, heap (fst (run ops w2)) !! r = Some j3 -> 1 <= _maxAttempts j3 ->
              ~ In (FailJobForever r) (events (processJob r (fst (run ops w2))))).
Proof.
  intros Hw Hj Hm Hc t w1 w2.
  destruct (reachable_never_attempted w Hw r j Hj) as [Ha _].
  assert (Ht : triedMaxAttempts j = false).
  { unfold triedMaxAttempts, attempts. rewrite Ha, Hm. reflexivity. }
  assert (E1 : processJob r w =
               (Normal tt, with_tasks (tasks w ++ [mkTask r false true true]) w,
                [SetTimer r (_jobTimeout (memq w)); Process r]))
    by exact (processJob_run w r j Hj Ht Hc).
  assert (E2 : processRejects t e w1 =
               (Normal tt,
                with_tasks (alter set_settled t
                              (alter (set_running false) t (tasks w1))) w1,
                [FailJob r; Raised OnFailure r])).
  { assert (Hw1 : w1 = with_tasks (tasks w ++ [mkTask r false true true]) w)
      by (subst w1; rewrite E1; reflexivity).
    rewrite Hw1.
    apply (processRejects_run
             (with_tasks (tasks w ++ [mkTask r false true true]) w)
             t (mkTask r false true true) j e).
    - simpl. subst t. apply list_lookup_middle. reflexivity.
    - reflexivity.
    - reflexivity.
    - exact Hj. }
  assert (Hj2 : heap w2 !! r = Some j).
  { unfold w2. rewrite E2. unfold w1. rewrite E1. exact Hj. }
  assert (E3 : processJob r w2 =
               (Normal tt, with_tasks (tasks w2 ++ [mkTask r false true true]) w2,
                [SetTimer r (_jobTimeout (memq w2)); Process r]))
    by exact (processJob_run w2 r j Hj2 Ht Hc).
  assert (Hq : memq w2 = memq w).
  { unfold w2. rewrite E2. unfold w1. rewrite E1. reflexivity. }
  split; [exact Ha|].
  split; [rewrite E1; reflexivity|].
  split; [rewrite E2; reflexivity|].
  split; [exact Hj2|].
  split; [rewrite Hq; reflexivity|].
  rewrite E3, Hq. split; [reflexivity|].
  split; [simpl; intros [H|[H|[]]]; discriminate H|].
  intros j3 Hj3 Hm3.
  assert (Hn : never_attempted (heap (fst (run ops w2)))).
  { apply (run_keeps (on_heap never_attempted));
      [apply exec_keeps_never_attempted|].
    unfold on_heap, w2. rewrite E2. unfold w1. rewrite E1.
    exact (reachable_never_attempted w Hw). }
  destruct (Hn r j3 Hj3) as [Ha3 _].
  exact (processJob_without_attempts _ r j3 Hj3 Ha3 Hm3).
Qed.

(** The job of the scenario: [maxAttempts(1)], inserted. *)
Lemma single_attempt_job_is_retried_witness :
  let w := fst (run [ONew 100 Returns Returns Returns; OMaxAttempts 0%nat 1;
                     OInsert 0%nat] (initial "mail")) in
  let j := maxAttempts 1 (newJob 100 Returns Returns Returns) in
  let w1 := world (processJob 0%nat w) in
  let w2 := world (processRejects 0 (UserError 7) w1) in
  attempts j = 0 /\
  events (processJob 0%nat w) = [SetTimer 0%nat (_jobTimeout (memq w)); Process 0%nat] /\
  events (processRejects 0 (UserError 7) w1) = [FailJob 0%nat; Raised OnFailure 0%nat] /\
  heap w2 !! 0%nat = Some j /\
  _jobs (memq w2) = _jobs (memq w) /\
  events (processJob 0%nat w2) = [SetTimer 0%nat (_jobTimeout (memq w)); Process 0%nat] /\
  ~ In (FailJobForever 0%nat) (events (processJob 0%nat w2)) /\
  (forall j3, heap (fst (run [OWork 200] w2)) !! 0%nat = Some j3 ->
              1 <= _maxAttempts j3 ->
              ~ In (FailJobForever 0%nat)
                   (events (processJob 0%nat (fst (run [OWork 200] w2))))).
Proof.
  apply (single_attempt_job_is_retried
           (fst (run [ONew 100 Returns Returns Returns; OMaxAttempts 0%nat 1;
                      OInsert 0%nat] (initial "mail")))
           0%nat (maxAttempts 1 (newJob 100 Returns Returns Returns)) (UserError 7)
           [OWork 200]).
  - apply reachable_run. constructor.
  - vm_compute. reflexivity.
  - reflexivity.
  - reflexivity.
Defined.

(** The same through two cycles of the worker: the job is dispatched,
    rejects, the cycle ends; the next cycle dispatches it again, and on
    the second rejection [failJob] runs and the job is still stored. *)
Example two_cycles_of_a_single_attempt_job :
  let w1 := fst (run [ONew 100 Returns Returns Returns; OMaxAttempts 0%nat 1;
                      OInsert 0%nat;
                      OWork 100; ODeliver (ProcessRejects 0 (UserError 7))]
                     (initial "mail")) in
  let w2 := world (deliver (PollTimerFires 200) w1) in
  at_ref w1 attempts (-1) 0%nat = 0 /\
  at_ref w1 triedMaxAttempts true 0%nat = false /\
  events (deliver (PollTimerFires 200) w1) = [SetTimer 0%nat 10000; Process 0%nat] /\
  events (deliver (ProcessRejects 1 (UserError 7)) w2)
    = [FailJob 0%nat; Raised OnFailure 0%nat; SetPollTimer 100] /\
  _jobs (memq (world (deliver (ProcessRejects 1 (UserError 7)) w2))) = [0%nat].
Proof. vm_compute. repeat split. Qed.

(** ** Sorting *)

Section StableSort.
Context {A : Type} (key : A -> Z).

Lemma sort_insert_perm (cmp : A -> A -> Z) (x : A) (l : list A) :
  Permutation (x :: l) (sort_insert cmp x l).
Proof.
  induction l as [|y l IH]; simpl; [reflexivity|].
  destruct (0 <? cmp x y); [|reflexivity].
  rewrite perm_swap. apply perm_skip, IH.
Qed.

Lemma sort_perm (cmp : A -> A -> Z) (l : list A) : Permutation l (sort cmp l).
Proof.
  induction l as [|x l IH]; simpl; [reflexivity|].
  rewrite <- sort_insert_perm. apply perm_skip, IH.
Qed.

Lemma sort_insert_sorted (x : A) (l : list A) :
  StronglySorted (key_le key) l ->
  StronglySorted (key_le key) (sort_insert (by_key key) x l).
Proof.
  induction 1 as [|y l Hl IH Hy]; simpl.
  - repeat constructor.
  - unfold by_key at 1. destruct (0 <? key x - key y) eqn:E.
    + apply Z.ltb_lt in E. constructor; [exact IH|].
      eapply Permutation_Forall; [apply sort_insert_perm|].
      constructor; [unfold key_le; lia | exact Hy].
    + apply Z.ltb_ge in E. constructor; [constructor; assumption|].
      constructor; [unfold key_le; lia|].
      eapply Forall_impl; [exact Hy|]. unfold key_le. intros z Hz. lia.
Qed.

Lemma sort_sorted (l : list A) : StronglySorted (key_le key) (sort (by_key key) l).
Proof.
  induction l as [|x l IH]; simpl; [constructor|].
  apply sort_insert_sorted, IH.
Qed.

(** Stability: the elements of one key keep the order they had. *)
Lemma sort_insert_stable (k : Z) (x : A) (l : list A) :
  List.filter (fun a => key a =? k) (sort_insert (by_key key) x l)
  = List.filter (fun a => key a =? k) (x :: l).
Proof.
  induction l as [|y l IH]; [reflexivity|].
  cbn [sort_insert]. unfold by_key at 1.
  destruct (0 <? key x - key y) eqn:E; [|reflexivity].
  apply Z.ltb_lt in E. cbn [List.filter] in *. rewrite IH.
  destruct (key x =? k) eqn:Ex, (key y =? k) eqn:Ey; try reflexivity.
  apply Z.eqb_eq in Ex, Ey. lia.
Qed.

Lemma sort_stable (k : Z) (l : list A) :
  List.filter (fun a => key a =? k) (sort (by_key key) l)
  = List.filter (fun a => key a =? k) l.
Proof.
  induction l as [|x l IH]; [reflexivity|].
  cbn [sort foldr]. fold (sort (by_key key) l).
  rewrite sort_insert_stable. cbn [List.filter]. rewrite IH. reflexivity.
Qed.

End StableSort.

(** ** The next jobs *)

Lemma jobReadyForProcessing_eligible (now : Z) (job : BaseJob) :
  jobReadyForProcessing now job = eligible now job.
Proof.
  unfold jobReadyForProcessing, eligible.
  destruct (isStillLocked now job), (isAvailable now job), (isCancelled job);
    reflexivity.
Qed.

Lemma filter_ready_eligible (w : World) (now : Z) (l : list ref) :
  List.filter (at_ref w (jobReadyForProcessing now) false) l
  = List.filter (at_ref w (eligible now) false) l.
Proof.
  apply filter_ext. intros r. unfold at_ref.
  destruct (heap w !! r); [apply jobReadyForProcessing_eligible | reflexivity].
Qed.

(** [getNextJobs] with the cap applied to the sorted array. *)
Lemma getNextJobs_run (now : Z) (w : World) :
  0 <= _concurrency (memq w) ->
  let sorted :=
    sort (byAvailableAt w)
         (List.filter (at_ref w (eligible now) false) (_jobs (memq w))) in
  getNextJobs now w =
  (Normal (if _concurrency (memq w) =? 0 then sorted
           else take (Z.to_nat (_concurrency (memq w))) sorted), w, []).
Proof.
  intros Hc sorted. unfold getNextJobs, bind, get.
  rewrite filter_ready_eligible. fold sorted.
  unfold Num.truthyZ.
  destruct (_concurrency (memq w) =? 0) eqn:E0; [reflexivity|].
  cbn [negb andb].
  destruct (Z.of_nat (length sorted) >? _concurrency (memq w)) eqn:El.
  - unfold set_length.
    destruct (_concurrency (memq w) <? 0) eqn:En; [apply Z.ltb_lt in En; lia|].
    reflexivity.
  - rewrite take_ge; [reflexivity|].
    rewrite Z.gtb_ltb in El. apply Z.ltb_ge in El. lia.
Qed.

(** C3: with a cap that is a count ([0 <= _concurrency]; the
    specification has it a positive integer), [getNextJobs] answers the
    array [sorted] of exactly the stored jobs that are available, not
    locked and not cancelled, in ascending order of [availableAt], jobs
    of one [availableAt] in the order of the array [_jobs], cut to the
    first [_concurrency] jobs (so to at most that many), and not cut
    when the cap is 0.  It changes nothing. *)
Theorem getNextJobs_eligible_sorted_capped (now : Z) (w : World) :
  0 <= _concurrency (memq w) ->
  let stored := _jobs (memq w) in
  let ok := at_ref w (eligible now) false in
  let due := at_ref w availableAt 0 in
  exists sorted : list ref,
    (forall r, In r sorted <->
               In r stored /\
               exists j, heap w !! r = Some j /\ isAvailable now j = true /\
                         isStillLocked now j = false /\ isCancelled j = false) /\
    Permutation (List.filter ok stored) sorted /\
    StronglySorted (fun a b => due a <= due b) sorted /\
    (forall k, List.filter (fun r => due r =? k) sorted
               = List.filter (fun r => due r =? k) (List.filter ok stored)) /\
    getNextJobs now w =
    (Normal (if _concurrency (memq w) =? 0 then sorted
             else take (Z.to_nat (_concurrency (memq w))) sorted), w, []) /\
    (_concurrency (memq w) <> 0 ->
     Z.of_nat (length (take (Z.to_nat (_concurrency (memq w))) sorted))
     <= _concurrency (memq w)).
Proof.
  intros Hc stored ok due.
  exists (sort (byAvailableAt w) (List.filter ok stored)).
  assert (Hperm : Permutation (List.filter ok stored)
                    (sort (byAvailableAt w) (List.filter ok stored)))
    by apply sort_perm.
  split; [|split; [exact Hperm | split; [|split; [|split]]]].
  - intros r. rewrite <- (Permutation_in' (eq_refl r) Hperm).
    rewrite filter_In. subst ok. unfold at_ref, eligible.
    split.
    + intros [Hin Hr]. split; [exact Hin|].
      destruct (heap w !! r) as [j|]; [|discriminate].
      exists j. apply andb_prop in Hr as [Hr Hcn].
      apply andb_prop in Hr as [Ha Hl].
      apply negb_true_iff in Hcn, Hl. auto.
    + intros [Hin (j & Hj & Ha & Hl & Hcn)]. split; [exact Hin|].
      rewrite Hj, Ha, Hl, Hcn. reflexivity.
  - exact (sort_sorted due (List.filter ok stored)).
  - intros k. exact (sort_stable due k (List.filter ok stored)).
  - exact (getNextJobs_run now w Hc).
  - intros _. rewrite length_take. lia.
Qed.

(** The scenario of the specification.  Of three jobs due at
    [now], [now + 10] and [now - 5], with a cap of 2, one poll answers
    the job due at [now - 5], then the job due at [now]. *)
Example getNextJobs_three_jobs :
  completion (getNextJobs 100 three_jobs) = Normal [2%nat; 0%nat].
Proof. vm_compute. reflexivity. Qed.

Lemma getNextJobs_eligible_sorted_capped_witness :
  let w := three_jobs in
  let stored := _jobs (memq w) in
  let ok := at_ref w (eligible 100) false in
  let due := at_ref w availableAt 0 in
  exists sorted : list ref,
    (forall r, In r sorted <->
               In r stored /\
               exists j, heap w !! r = Some j /\ isAvailable 100 j = true /\
                         isStillLocked 100 j = false /\ isCancelled j = false) /\
    Permutation (List.filter ok stored) sorted /\
    StronglySorted (fun a b => due a <= due b) sorted /\
    (forall k, List.filter (fun r => due r =? k) sorted
               = List.filter (fun r => due r =? k) (List.filter ok stored)) /\
    getNextJobs 100 w =
    (Normal (if _concurrency (memq w) =? 0 then sorted
             else take (Z.to_nat (_concurrency (memq w))) sorted), w, []) /\
    (_concurrency (memq w) <> 0 ->
     Z.of_nat (length (take (Z.to_nat (_concurrency (memq w))) sorted))
     <= _concurrency (memq w)).
Proof.
  apply (getNextJobs_eligible_sorted_capped 100 three_jobs).
  vm_compute. discriminate.
Defined.

(** X8: a cap below zero (after [setConcurrency(-1)]) makes the
    assignment to [length] throw, whatever the array holds. *)
Theorem getNextJobs_negative_cap (now : Z) (w : World) :
  _concurrency (memq w) < 0 ->
  getNextJobs now w = (Throw RangeError, w, []).
Proof.
  intros Hc. unfold getNextJobs, bind, get, Num.truthyZ.
  destruct (_concurrency (memq w) =? 0) eqn:E0; [apply Z.eqb_eq in E0; lia|].
  cbn [negb andb].
  destruct (Z.of_nat (length _) >? _concurrency (memq w)) eqn:El.
  - unfold set_length.
    destruct (_concurrency (memq w) <? 0) eqn:En; [reflexivity|].
    apply Z.ltb_ge in En. lia.
  - rewrite Z.gtb_ltb in El. apply Z.ltb_ge in El. lia.
Qed.

(** ** What [getNextJobs] never offers *)

Lemma In_sorted_eligible (now : Z) (w : World) (r : ref) :
  In r (sort (byAvailableAt w)
             (List.filter (at_ref w (eligible now) false) (_jobs (memq w)))) <->
  In r (_jobs (memq w)) /\
  exists j, heap w !! r = Some j /\ isAvailable now j = true /\
            isStillLocked now j = false /\ isCancelled j = false.
Proof.
  rewrite <- (Permutation_in' (eq_refl r) (sort_perm (byAvailableAt w) _)).
  rewrite filter_In. unfold at_ref, eligible.
  split.
  - intros [Hin Hr]. split; [exact Hin|].
    destruct (heap w !! r) as [j|]; [|discriminate].
    exists j. apply andb_prop in Hr as [Hr Hcn].
    apply andb_prop in Hr as [Ha Hl].
    apply negb_true_iff in Hcn, Hl. auto.
  - intros [Hin (j & Hj & Ha & Hl & Hcn)]. split; [exact Hin|].
    rewrite Hj, Ha, Hl, Hcn. reflexivity.
Qed.

Lemma getNextJobs_In (now : Z) (w : World) (l : list ref) (r : ref) :
  completion (getNextJobs now w) = Normal l ->
  In r l ->
  In r (_jobs (memq w)) /\
  exists j, heap w !! r = Some j /\ isAvailable now j = true /\
            isStillLocked now j = false /\ isCancelled j = false.
Proof.
  intros Hl Hr. apply In_sorted_eligible.
  revert Hl. unfold getNextJobs, bind, get, completion.
  rewrite filter_ready_eligible.
  destruct (Num.truthyZ _ && _); simpl.
  - unfold set_length. destruct (_ <? 0); simpl; [discriminate|].
    intros [= <-].
    rewrite <- (take_drop (Z.to_nat (_concurrency (memq w)))).
    apply in_or_app. left. exact Hr.
  - intros [= <-]. exact Hr.
Qed.

(** X4: whatever the cap, a job [getNextJobs] answers is stored, due
    ([availableAt <= now]), not locked and not cancelled; a job whose
    [availableAt] is in the future is not offered. *)
Theorem getNextJobs_only_eligible (now : Z) (w : World) (l : list ref) (r : ref) :
  completion (getNextJobs now w) = Normal l ->
  In r l ->
  In r (_jobs (memq w)) /\
  exists j, heap w !! r = Some j /\ availableAt j <= now /\
            isStillLocked now j = false /\ isCancelled j = false.
Proof.
  intros Hl Hr.
  destruct (getNextJobs_In now w l r Hl Hr) as [Hin (j & Hj & Ha & Hlk & Hc)].
  split; [exact Hin|]. exists j. repeat split; try assumption.
  unfold isAvailable in Ha. apply Z.geb_le in Ha. exact Ha.
Qed.

Lemma getNextJobs_only_eligible_witness :
  In 2%nat (_jobs (memq three_jobs)) /\
  exists j, heap three_jobs !! 2%nat = Some j /\ availableAt j <= 100 /\
            isStillLocked 100 j = false /\ isCancelled j = false.
Proof.
  apply (getNextJobs_only_eligible 100 three_jobs [2%nat; 0%nat] 2%nat).
  - vm_compute. reflexivity.
  - left. reflexivity.
Defined.

(** An array no longer than the cap is not cut. *)
Lemma getNextJobs_uncut (now : Z) (w : World) :
  Z.of_nat (length (_jobs (memq w))) <= _concurrency (memq w) ->
  getNextJobs now w =
  (Normal (sort (byAvailableAt w)
             (List.filter (at_ref w (eligible now) false) (_jobs (memq w)))),
   w, []).
Proof.
  intros Hc. unfold getNextJobs, bind, get.
  rewrite filter_ready_eligible.
  destruct (Z.of_nat (length (sort _ _)) >? _concurrency (memq w)) eqn:El.
  - exfalso. apply Z.gtb_lt in El.
    rewrite <- (Permutation_length (sort_perm (byAvailableAt w) _)) in El.
    pose proof (filter_length_le (at_ref w (eligible now) false) (_jobs (memq w))).
    lia.
  - rewrite andb_false_r. reflexivity.
Qed.

(** C2, where the code goes wrong (the same [index != 1] as in C1):
    [failJobForever] of the job in the second place of the array calls
    [onPermanentFailure] once and leaves the job in the array, and when
    the job is eligible and the cap does not cut the array, the next
    [getNextJobs] offers it again. *)
Theorem failJobForever_keeps_second_job (w : World) (a b : ref) (rest : list ref)
    (j : BaseJob) (now : Z) :
  a <> b ->
  _jobs (memq w) = a :: b :: rest ->
  heap w !! b = Some j ->
  eligible now j = true ->
  Z.of_nat (length (a :: b :: rest)) <= _concurrency (memq w) ->
  completion (failJobForever b w) = Normal VUndefined /\
  events (failJobForever b w) = [FailJobForever b; Raised OnPermanentFailure b] /\
  _jobs (memq (world (failJobForever b w))) = a :: b :: rest /\
  exists l, completion (getNextJobs now (world (failJobForever b w))) = Normal l /\
            In b l.
Proof.
  intros Hab Hjobs Hj He Hc.
  rewrite (failJobForever_run b j w Hj), removeJobFromQueue_run; simpl.
  rewrite Hjobs, removed_second by exact Hab.
  split; [reflexivity | split; [reflexivity | split; [reflexivity|]]].
  rewrite getNextJobs_uncut by (simpl; exact Hc).
  eexists. split; [reflexivity|].
  apply In_sorted_eligible. simpl. split; [right; left; reflexivity|].
  exists j. split; [exact Hj|].
  unfold eligible in He. apply andb_prop in He as [He Hcn].
  apply andb_prop in He as [Ha Hl]. apply negb_true_iff in Hcn, Hl. auto.
Qed.

Lemma failJobForever_keeps_second_job_witness :
  completion (failJobForever 1%nat two_jobs) = Normal VUndefined /\
  events (failJobForever 1%nat two_jobs)
    = [FailJobForever 1%nat; Raised OnPermanentFailure 1%nat] /\
  _jobs (memq (world (failJobForever 1%nat two_jobs))) = [0%nat; 1%nat] /\
  exists l, completion (getNextJobs 100 (world (failJobForever 1%nat two_jobs)))
            = Normal l /\ In 1%nat l.
Proof.
  apply (failJobForever_keeps_second_job two_jobs 0%nat 1%nat []
           (newJob 100 Returns Returns Returns) 100).
  - discriminate.
  - reflexivity.
  - vm_compute. reflexivity.
  - reflexivity.
  - vm_compute. discriminate.
Defined.

(** The same on the queue of two jobs: after [failJobForever] of the
    second, [getNextJobs] answers both. *)
Example failJobForever_second_of_two :
  _jobs (memq (world (failJobForever 1%nat two_jobs))) = [0%nat; 1%nat] /\
  completion (getNextJobs 100 (world (failJobForever 1%nat two_jobs)))
  = Normal [0%nat; 1%nat].
Proof. vm_compute. split; reflexivity. Qed.

(** ** What [removeJobFromQueue] removes *)

Lemma indexOf_from_In (r : ref) (l : list ref) (i : Z) :
  In r l ->
  exists l1 l2, l = l1 ++ r :: l2 /\ ~ In r l1 /\
                indexOf_from r l i = i + Z.of_nat (length l1).
Proof.
  revert i. induction l as [|x l IH]; intros i Hin; [destruct Hin|].
  simpl. destruct (decide (x = r)) as [->|Hx].
  - exists [], l. simpl. split; [reflexivity | split; [tauto | lia]].
  - destruct Hin as [Hin|Hin]; [contradiction|].
    destruct (IH (i + 1) Hin) as (l1 & l2 & -> & Hn & Hi).
    exists (x :: l1), l2. split; [reflexivity|]. split.
    + simpl. intros [H|H]; [contradiction | exact (Hn H)].
    + rewrite Hi. simpl length. lia.
Qed.

Lemma indexOf_from_absent (r : ref) (l : list ref) (i : Z) :
  ~ In r l -> indexOf_from r l i = -1.
Proof.
  revert i. induction l as [|x l IH]; intros i Hn; [reflexivity|].
  simpl. destruct (decide (x = r)) as [->|Hx].
  - exfalso. apply Hn. left. reflexivity.
  - apply IH. intros H. apply Hn. right. exact H.
Qed.

Lemma splice_one_at (l1 : list ref) (x : ref) (l2 : list ref) :
  splice (Z.of_nat (length l1)) 1 (l1 ++ x :: l2) = l1 ++ l2.
Proof.
  unfold splice. rewrite length_app. simpl length.
  destruct (Z.of_nat (length l1) <? 0) eqn:E; [apply Z.ltb_lt in E; lia|].
  replace (Z.min (Z.of_nat (length l1)) (Z.of_nat (length l1 + S (length l2))))
    with (Z.of_nat (length l1)) by lia.
  replace (Z.of_nat (length l1) +
           Z.min (Z.max 1 0) (Z.of_nat (length l1 + S (length l2)) - Z.of_nat (length l1)))
    with (Z.of_nat (S (length l1))) by lia.
  rewrite !Nat2Z.id.
  rewrite take_app_length.
  change (x :: l2) with ([x] ++ l2). rewrite app_assoc.
  rewrite drop_app_length'; [reflexivity|].
  rewrite length_app. simpl. lia.
Qed.

Lemma splice_one_last (l : list ref) (x : ref) :
  splice (-1) 1 (l ++ [x]) = l.
Proof.
  unfold splice. rewrite length_app. simpl length.
  change (-1 <? 0) with true. cbn iota.
  replace (Z.max (Z.of_nat (length l + 1) + -1) 0) with (Z.of_nat (length l)) by lia.
  replace (Z.of_nat (length l) +
           Z.min (Z.max 1 0) (Z.of_nat (length l + 1) - Z.of_nat (length l)))
    with (Z.of_nat (length l + 1)) by lia.
  rewrite !Nat2Z.id, take_app_length.
  rewrite drop_ge; [apply app_nil_r|].
  rewrite length_app. simpl. lia.
Qed.

(** The job is cut out at its first place in the array, unless that
    place is 1. *)
Lemma removed_first_place (job : ref) (l1 l2 : list ref) :
  ~ In job l1 -> length l1 <> 1%nat ->
  removed job (l1 ++ job :: l2) = l1 ++ l2.
Proof.
  intros Hn Hlen. unfold removed, indexOf.
  destruct (indexOf_from_In job (l1 ++ job :: l2) 0) as (k1 & k2 & Hk & Hnk & Hi).
  { apply in_or_app. right. left. reflexivity. }
  assert (Hl : length k1 = length l1).
  { destruct (Nat.lt_trichotomy (length k1) (length l1)) as [Hlt|[Heq|Hgt]];
      [exfalso | exact Heq | exfalso].
    - apply Hn. apply (f_equal (fun l => l !! length k1)) in Hk.
      rewrite lookup_app_l in Hk by exact Hlt.
      rewrite list_lookup_middle in Hk by reflexivity.
      apply list_elem_of_In, list_elem_of_lookup. eauto.
    - apply Hnk. apply (f_equal (fun l => l !! length l1)) in Hk.
      rewrite list_lookup_middle in Hk by reflexivity.
      rewrite lookup_app_l in Hk by exact Hgt.
      apply list_elem_of_In, list_elem_of_lookup. eauto. }
  rewrite Hi, Hl, Z.add_0_l.
  destruct (Z.of_nat (length l1) =? 1) eqn:E; [apply Z.eqb_eq in E; lia|].
  apply splice_one_at.
Qed.

(** A job that is not in the array: [indexOf] answers [-1], the test
    [index != 1] lets it through, and [splice(-1, 1)] cuts the last job
    out. *)
Lemma removed_absent (job last : ref) (l : list ref) :
  ~ In job (l ++ [last]) -> removed job (l ++ [last]) = l.
Proof.
  intros Hn. unfold removed, indexOf.
  rewrite (indexOf_from_absent job _ 0 Hn). apply splice_one_last.
Qed.

(** X1: [finishJob] where the removal works.  For a job that is stored
    once and not in the second place, [finishJob] resolves, calls
    [onSuccess] once and leaves the array without the job. *)
Theorem finishJob_removes_elsewhere (w : World) (job : ref) (j : BaseJob)
    (l1 l2 : list ref) :
  _jobs (memq w) = l1 ++ job :: l2 ->
  ~ In job l1 -> ~ In job l2 -> length l1 <> 1%nat ->
  heap w !! job = Some j ->
  completion (finishJob job w) = Normal VTrue /\
  _jobs (memq (world (finishJob job w))) = l1 ++ l2 /\
  ~ In job (_jobs (memq (world (finishJob job w)))) /\
  events (finishJob job w) = [FinishJob job; Raised OnSuccess job].
Proof.
  intros Hjobs H1 H2 Hlen Hj.
  rewrite (finishJob_run job j w Hj), removeJobFromQueue_run; simpl.
  rewrite Hjobs, (removed_first_place job l1 l2 H1 Hlen).
  repeat split. intros H. apply in_app_or in H. tauto.
Qed.

Lemma finishJob_removes_elsewhere_witness :
  completion (finishJob 0%nat two_jobs) = Normal VTrue /\
  _jobs (memq (world (finishJob 0%nat two_jobs))) = [] ++ [1%nat] /\
  ~ In 0%nat (_jobs (memq (world (finishJob 0%nat two_jobs)))) /\
  events (finishJob 0%nat two_jobs) = [FinishJob 0%nat; Raised OnSuccess 0%nat].
Proof.
  apply (finishJob_removes_elsewhere two_jobs 0%nat
           (newJob 100 Returns Returns Returns) [] [1%nat]).
  - reflexivity.
  - simpl. tauto.
  - simpl. intros [H|[]]. discriminate H.
  - discriminate.
  - vm_compute. reflexivity.
Defined.

(** X2: [failJobForever] where the removal works.  For a job that is
    stored once and not in the second place, [failJobForever] resolves,
    calls [onPermanentFailure] once and leaves the array without the
    job, and the next [getNextJobs] does not offer it. *)
Theorem failJobForever_removes_elsewhere (w : World) (job : ref) (j : BaseJob)
    (l1 l2 : list ref) :
  _jobs (memq w) = l1 ++ job :: l2 ->
  ~ In job l1 -> ~ In job l2 -> length l1 <> 1%nat ->
  heap w !! job = Some j ->
  completion (failJobForever job w) = Normal VUndefined /\
  _jobs (memq (world (failJobForever job w))) = l1 ++ l2 /\
  ~ In job (_jobs (memq (world (failJobForever job w)))) /\
  events (failJobForever job w) = [FailJobForever job; Raised OnPermanentFailure job] /\
  (forall now l,
     completion (getNextJobs now (world (failJobForever job w))) = Normal l ->
     ~ In job l).
Proof.
  intros Hjobs H1 H2 Hlen Hj.
  assert (Hout : ~ In job (l1 ++ l2)).
  { intros H. apply in_app_or in H. tauto. }
  rewrite (failJobForever_run job j w Hj), removeJobFromQueue_run; simpl.
  rewrite Hjobs, (removed_first_place job l1 l2 H1 Hlen).
  split; [reflexivity | split; [reflexivity | split; [exact Hout | split; [reflexivity|]]]].
  intros now l Hl Hin.
  destruct (getNextJobs_In now _ l job Hl Hin) as [Hst _].
  exact (Hout Hst).
Qed.

Lemma failJobForever_removes_elsewhere_witness :
  completion (failJobForever 0%nat two_jobs) = Normal VUndefined /\
  _jobs (memq (world (failJobForever 0%nat two_jobs))) = [] ++ [1%nat] /\
  ~ In 0%nat (_jobs (memq (world (failJobForever 0%nat two_jobs)))) /\
  events (failJobForever 0%nat two_jobs)
    = [FailJobForever 0%nat; Raised OnPermanentFailure 0%nat] /\
  (forall now l,
     completion (getNextJobs now (world (failJobForever 0%nat two_jobs))) = Normal l ->
     ~ In 0%nat l).
Proof.
  apply (failJobForever_removes_elsewhere two_jobs 0%nat
           (newJob 100 Returns Returns Returns) [] [1%nat]).
  - reflexivity.
  - simpl. tauto.
  - simpl. intros [H|[]]. discriminate H.
  - discriminate.
  - vm_compute. reflexivity.
Defined.

(** X3: [finishJob] of a job that has left the array already (a second
    completion of a job that was dispatched twice, say) takes the last
    job of the array with it: [indexOf] answers [-1], which passes the
    test [index != 1], and [splice(-1, 1)] cuts at the end. *)
Theorem finishJob_absent_removes_last (w : World) (job last : ref) (j : BaseJob)
    (l : list ref) :
  _jobs (memq w) = l ++ [last] ->
  ~ In job (l ++ [last]) ->
  heap w !! job = Some j ->
  _jobs (memq (world (finishJob job w))) = l /\
  events (finishJob job w) = [FinishJob job; Raised OnSuccess job].
Proof.
  intros Hjobs Hn Hj.
  rewrite (finishJob_run job j w Hj), removeJobFromQueue_run; simpl.
  rewrite Hjobs, (removed_absent job last l Hn). split; reflexivity.
Qed.

Lemma finishJob_absent_removes_last_witness :
  let w := world (finishJob 0%nat three_jobs) in
  _jobs (memq (world (finishJob 0%nat w))) = [1%nat] /\
  events (finishJob 0%nat w) = [FinishJob 0%nat; Raised OnSuccess 0%nat].
Proof.
  apply (finishJob_absent_removes_last (world (finishJob 0%nat three_jobs))
           0%nat 2%nat (newJob 100 Returns Returns Returns) [1%nat]).
  - vm_compute. reflexivity.
  - simpl. intros [H|[H|[]]]; discriminate H.
  - vm_compute. reflexivity.
Defined.

(** ** Cancelled jobs *)

(** Every operation changes a job by one of the setters of [BaseJob] or
    creates one: a property of the heap that survives both survives
    every program. *)
Lemma exec_keeps_heap (R : BaseJob -> BaseJob -> Prop)
    (H : gmap ref BaseJob -> Prop) (op : Op) :
  (forall j, R j (set_cancelled j)) ->
  (forall name j, R j (onQueue name j)) ->
  (forall n j, R j (maxAttempts n j)) ->
  (forall s j, R j (retryAfter s j)) ->
  (forall t j, R j (later t j)) ->
  (forall h r j j', H h -> h !! r = Some j -> R j j' -> H (<[r := j']> h)) ->
  (forall h r j, H h -> h !! r = None -> H (<[r := j]> h)) ->
  keeps (on_heap H) (exec op).
Proof.
  intros Rc Rq Rm Rr Rl Hupd Hnew.
  destruct (core_op op) eqn:Hop.
  - apply core_op_keeps_heap; [|exact Hop].
    intros h r j Hh Hj. exact (Hupd h r j _ Hh Hj (Rc j)).
  - destruct op; try discriminate Hop; simpl.
    + apply keeps_bind; [|intros; apply keeps_ret].
      apply keeps_heap_alloc. intros h r. apply Hnew.
    + apply keeps_heap_update_job. intros h j Hh Hj. exact (Hupd h r j _ Hh Hj (Rq name j)).
    + apply keeps_heap_update_job. intros h j Hh Hj. exact (Hupd h r j _ Hh Hj (Rm n j)).
    + apply keeps_heap_update_job. intros h j Hh Hj. exact (Hupd h r j _ Hh Hj (Rr seconds j)).
    + apply keeps_heap_update_job. intros h j Hh Hj. exact (Hupd h r j _ Hh Hj (Rl atTime j)).
    + apply keeps_heap_modify. reflexivity.
    + apply keeps_heap_modify. reflexivity.
Qed.

(** [cancelled] only goes from [false] to [true]. *)
Lemma cancelled_for_good (r : ref) (op : Op) :
  keeps (on_heap (is_cancelled r)) (exec op).
Proof.
  apply (exec_keeps_heap (fun j j' => _cancelled j = true -> _cancelled j' = true));
    try (intros; simpl; auto; fail).
  - intros h r0 j0 j' (j & Hj & Hc) Hj0 HR. unfold is_cancelled.
    rewrite lookup_insert. case_decide as E.
    + subst r0. rewrite Hj in Hj0. injection Hj0 as <-. eauto.
    + eauto.
  - intros h r0 j0 (j & Hj & Hc) Hnone. unfold is_cancelled.
    rewrite lookup_insert. case_decide as E.
    + subst r0. rewrite Hj in Hnone. discriminate.
    + eauto.
Qed.

Lemma cancel_sets_cancelled (w : World) (r : ref) (j : BaseJob) :
  heap w !! r = Some j -> is_cancelled r (heap (world (cancel r w))).
Proof.
  intros Hj. unfold cancel, bind at 1. rewrite (deref_run r j w Hj).
  unfold cancelJob, bind, modify, world; simpl.
  exists (set_cancelled j). rewrite lookup_insert_eq. split; reflexivity.
Qed.

(** X5: a job that was cancelled is in no answer of [getNextJobs],
    whatever happened to the queue and the jobs since. *)
Theorem cancelled_job_never_offered (w : World) (r : ref) (j : BaseJob)
    (ops : list Op) (now : Z) (l : list ref) :
  heap w !! r = Some j ->
  completion (getNextJobs now (fst (run (OCancel r :: ops) w))) = Normal l ->
  ~ In r l.
Proof.
  intros Hj Hl Hr. simpl in Hl.
  assert (Hc : on_heap (is_cancelled r) (fst (run ops (world (cancel r w))))).
  { apply run_keeps; [apply cancelled_for_good|].
    exact (cancel_sets_cancelled w r j Hj). }
  destruct (getNextJobs_In now _ l r Hl Hr)
    as (_ & j1 & Hj1 & _ & _ & Hn).
  destruct Hc as (j2 & Hj2 & Hc). rewrite Hj1 in Hj2. injection Hj2 as <-.
  unfold isCancelled in Hn. congruence.
Qed.

(** The first of two jobs is cancelled and inserted again: the next jobs
    are the second alone. *)
Lemma cancelled_job_never_offered_witness :
  completion (getNextJobs 100 (fst (run [OCancel 0%nat; OInsert 0%nat] two_jobs)))
  = Normal [1%nat] /\
  ~ In 0%nat [1%nat].
Proof.
  split; [vm_compute; reflexivity|].
  apply (cancelled_job_never_offered two_jobs 0%nat
           (newJob 100 Returns Returns Returns) [OInsert 0%nat] 100 [1%nat]).
  - vm_compute. reflexivity.
  - vm_compute. reflexivity.
Defined.

(** ** The cap *)

(** [setConcurrency(0)] changes nothing; any other number is
    taken. *)
Lemma setConcurrency_falsy (n : Z) (q : MemoryQueue) :
  setConcurrency 0 q = q /\
  (n <> 0 -> _concurrency (setConcurrency n q) = n).
Proof.
  split.
  - destruct q; reflexivity.
  - intros Hn. unfold setConcurrency, Num.or_elseZ, Num.truthyZ; simpl.
    destruct (n =? 0) eqn:E; [apply Z.eqb_eq in E; contradiction | reflexivity].
Qed.

(** The queue after [setConcurrency(-1)]. *)
Lemma getNextJobs_negative_cap_witness :
  getNextJobs 100 (world (exec (OSetConcurrency (-1)) two_jobs))
  = (Throw RangeError, world (exec (OSetConcurrency (-1)) two_jobs), []).
Proof.
  apply (getNextJobs_negative_cap 100 (world (exec (OSetConcurrency (-1)) two_jobs))).
  vm_compute. reflexivity.
Defined.

(** ** What happens between two continuations of one call *)

Lemma keeps_task_modify (t : nat) (tk : Task) (f : World -> World) :
  (forall w, tasks (f w) = tasks w) -> keeps (has_task t tk) (modify f).
Proof.
  intros Hf. apply keeps_modify. unfold has_task. intros w Hw.
  rewrite Hf. exact Hw.
Qed.

Ltac keeps_task :=
  repeat first
    [ keeps_step
    | match goal with
      | |- keeps (has_task _ _) (modify _) =>
          apply keeps_task_modify; intros w; reflexivity
      end ].

Lemma keeps_task_spawn (t : nat) (tk : Task) (r : ref) :
  keeps (has_task t tk) (spawn r).
Proof.
  unfold spawn. apply keeps_modify. unfold has_task; simpl. intros w Hw.
  apply lookup_app_l_Some. exact Hw.
Qed.

Lemma keeps_task_update_task (t : nat) (tk : Task) (t' : nat) (f : Task -> Task) :
  t' <> t -> keeps (has_task t tk) (update_task t' f).
Proof.
  intros Hne. unfold update_task. apply keeps_modify. unfold has_task; simpl.
  intros w Hw. rewrite list_lookup_alter_ne by exact Hne. exact Hw.
Qed.

Lemma keeps_task_removeJobFromQueue (t : nat) (tk : Task) (r : ref) :
  keeps (has_task t tk) (removeJobFromQueue r).
Proof.
  unfold removeJobFromQueue. apply keeps_task_modify. intros w.
  destruct (negb _); reflexivity.
Qed.

Lemma keeps_task_failJob (t : nat) (tk : Task) (r : ref) :
  keeps (has_task t tk) (failJob r).
Proof. unfold failJob, deref, raiseEvent, call. keeps_task. Qed.

Lemma keeps_task_failJobForever (t : nat) (tk : Task) (r : ref) :
  keeps (has_task t tk) (failJobForever r).
Proof.
  unfold failJobForever, deref, raiseEvent, call. keeps_task.
  apply keeps_task_removeJobFromQueue.
Qed.

Lemma keeps_task_finishJob (t : nat) (tk : Task) (r : ref) :
  keeps (has_task t tk) (finishJob r).
Proof.
  unfold finishJob, deref, raiseEvent, call. keeps_task.
  apply keeps_task_removeJobFromQueue.
Qed.

Lemma keeps_task_processJob (t : nat) (tk : Task) (r : ref) :
  keeps (has_task t tk) (processJob r).
Proof.
  unfold processJob, executor, deref. keeps_task;
    auto using keeps_task_failJob, keeps_task_failJobForever, keeps_task_spawn.
Qed.

Lemma keeps_task_reject (t : nat) (tk : Task) (t' : nat) :
  t' <> t -> keeps (has_task t tk) (reject t').
Proof.
  intros Hne. unfold reject. keeps_task;
    auto using keeps_task_update_task, keeps_task_failJob.
Qed.

Lemma keeps_task_resume (t : nat) (tk : Task) : keeps (has_task t tk) resume.
Proof. unfold resume, schedulePoll. keeps_task. Qed.

Lemma keeps_task_work (t : nat) (tk : Task) (now : Z) :
  keeps (has_task t tk) (work now).
Proof.
  unfold work, getNextJobs, set_length, schedulePoll. keeps_task;
    auto using keeps_task_processJob, keeps_task_resume.
Qed.

Lemma keeps_task_exec (t : nat) (tk : Task) (op : Op) :
  not_for t op = true -> keeps (has_task t tk) (exec op).
Proof.
  intros Hop. destruct op; simpl.
  - unfold alloc. keeps_task.
  - unfold update_job, deref. keeps_task.
  - unfold update_job, deref. keeps_task.
  - unfold update_job, deref. keeps_task.
  - unfold update_job, deref. keeps_task.
  - unfold cancel, cancelJob, deref. keeps_task.
  - keeps_task.
  - keeps_task.
  - unfold insert. keeps_task.
  - unfold getNextJobs, set_length. keeps_task.
  - apply keeps_task_processJob.
  - keeps_task. apply keeps_task_failJob.
  - keeps_task. apply keeps_task_failJobForever.
  - keeps_task. apply keeps_task_finishJob.
  - apply keeps_task_work.
  - destruct s as [t'|t'|t' e|now]; simpl in Hop;
      try (apply negb_true_iff, Nat.eqb_neq in Hop).
    + unfold deliver, timerFires. keeps_task;
        auto using keeps_task_update_task, keeps_task_reject, keeps_task_resume.
    + unfold deliver, processResolves, resolve. keeps_task;
        auto using keeps_task_update_task, keeps_task_reject, keeps_task_resume,
          keeps_task_finishJob.
    + unfold deliver, processRejects. keeps_task;
        auto using keeps_task_update_task, keeps_task_reject, keeps_task_resume.
    + unfold deliver. keeps_task. apply keeps_task_work.
Qed.

(** Through a run that delivers nothing to task [t], the task is what it
    was and its job is still an object. *)
Lemma run_keeps_task (t : nat) (tk : Task) (ops : list Op) (w : World) :
  forallb (not_for t) ops = true ->
  has_task t tk w -> has_task t tk (fst (run ops w)).
Proof.
  revert w. induction ops as [|op ops IH]; intros w Hops Hw; simpl.
  - exact Hw.
  - simpl in Hops. apply andb_prop in Hops as [Hop Hops].
    apply IH; [exact Hops|].
    exact (keeps_world _ _ w (keeps_task_exec t tk op Hop) Hw).
Qed.

Lemma exec_keeps_is_Some (r : ref) (op : Op) :
  keeps (on_heap (fun h => is_Some (h !! r))) (exec op).
Proof.
  apply (exec_keeps_heap (fun _ _ => True)); auto.
  - intros h r0 j j' Hr _ _. apply lookup_insert_is_Some'. right. exact Hr.
  - intros h r0 j Hr _. apply lookup_insert_is_Some'. right. exact Hr.
Qed.

(** ** The timeout and a late completion *)

(** C5, as the code has it.  When the timer of a call of [processJob]
    fires before [job.process()] settles, the call records a failure:
    [failJob] runs, [onFailure] is called, the promise of [processJob]
    is settled and the job stays in the array.  When [job.process()] is
    fulfilled afterwards, whatever ran on the queue in between ([ops]),
    the promise stays as it was and no second [failJob] runs, but
    [finishJob] is called all the same: [onSuccess] is called and the
    job is taken out of the array as [removeJobFromQueue] does it. *)
Theorem timeout_then_late_completion (w : World) (t : nat) (tk : Task) (j : BaseJob)
    (ops : list Op) :
  tasks w !! t = Some tk ->
  t_settled tk = false -> t_timer tk = true -> t_running tk = true ->
  heap w !! t_job tk = Some j ->
  forallb (not_for t) ops = true ->
  let r := t_job tk in
  let w1 := world (timerFires t w) in
  let w2 := fst (run ops w1) in
  completion (timerFires t w) = Normal tt /\
  events (timerFires t w) = [FailJob r; Raised OnFailure r] /\
  tasks w1 !! t = Some (mkTask r true false true) /\
  _jobs (memq w1) = _jobs (memq w) /\
  events (processResolves t w2) = [FinishJob r; Raised OnSuccess r; ClearTimer r] /\
  _jobs (memq (world (processResolves t w2))) = removed r (_jobs (memq w2)) /\
  tasks (world (processResolves t w2)) !! t = Some (mkTask r true false false).
Proof.
  intros Ht Hs Htm Hr Hj Hops r w1 w2.
  assert (E1 : timerFires t w =
               (Normal tt,
                with_tasks (alter set_settled t
                              (alter (set_timer false) t (tasks w))) w,
                [FailJob r; Raised OnFailure r]))
    by exact (timerFires_run w t tk j Ht Htm Hs Hj).
  assert (Ht1 : has_task t (mkTask r true false true) w1).
  { unfold has_task, w1. rewrite E1. simpl.
    rewrite !list_lookup_alter_eq, Ht. destruct tk as [r0 s tm rn]; simpl in *.
    subst. reflexivity. }
  assert (Hj1 : is_Some (heap w1 !! r)).
  { unfold w1. rewrite E1. exists j. exact Hj. }
  assert (Ht2 : has_task t (mkTask r true false true) w2)
    by exact (run_keeps_task t _ ops w1 Hops Ht1).
  assert (Hj2 : is_Some (heap w2 !! r)).
  { exact (run_keeps (on_heap (fun h => is_Some (h !! r))) ops w1
             (exec_keeps_is_Some r) Hj1). }
  destruct Hj2 as [j2 Hj2].
  assert (E2 : processResolves t w2 =
               (Normal tt,
                with_tasks
                  (alter set_settled t
                     (alter (set_timer false) t
                        (alter (set_running false) t (tasks w2))))
                  (with_memq (with_jobs (removed r (_jobs (memq w2))) (memq w2)) w2),
                [FinishJob r; Raised OnSuccess r; ClearTimer r]))
    by exact (processResolves_run w2 t (mkTask r true false true) j2 Ht2 eq_refl Hj2).
  split; [rewrite E1; reflexivity|].
  split; [rewrite E1; reflexivity|].
  split; [exact Ht1|].
  split; [unfold w1; rewrite E1; reflexivity|].
  rewrite E2. simpl.
  split; [reflexivity | split; [reflexivity|]].
  rewrite !list_lookup_alter_eq. unfold has_task in Ht2. rewrite Ht2. reflexivity.
Qed.

(** The job of [one_job_dispatched] times out, the next cycle dispatches
    it again, and then the first [process()] is fulfilled. *)
Lemma timeout_then_late_completion_witness :
  let w := one_job_dispatched in
  let w1 := world (timerFires 0 w) in
  let w2 := fst (run [OWork 200] w1) in
  completion (timerFires 0 w) = Normal tt /\
  events (timerFires 0 w) = [FailJob 0%nat; Raised OnFailure 0%nat] /\
  tasks w1 !! 0%nat = Some (mkTask 0%nat true false true) /\
  _jobs (memq w1) = _jobs (memq w) /\
  events (processResolves 0 w2)
    = [FinishJob 0%nat; Raised OnSuccess 0%nat; ClearTimer 0%nat] /\
  _jobs (memq (world (processResolves 0 w2))) = removed 0%nat (_jobs (memq w2)) /\
  tasks (world (processResolves 0 w2)) !! 0%nat = Some (mkTask 0%nat true false false).
Proof.
  apply (timeout_then_late_completion one_job_dispatched 0
           (mkTask 0%nat false true true) (newJob 100 Returns Returns Returns)
           [OWork 200]).
  - vm_compute. reflexivity.
  - reflexivity.
  - reflexivity.
  - reflexivity.
  - vm_compute. reflexivity.
  - reflexivity.
Defined.

(** C5, the claim as stated fails: the timer of the job fires first
    ([failJob], [onFailure]), then [process()] is fulfilled, and
    [finishJob] is called, [onSuccess] is called and the job leaves the
    array. *)
Lemma late_completion_calls_finishJob :
  let w1 := world (deliver (TimerFires 0) one_job_dispatched) in
  events (deliver (TimerFires 0) one_job_dispatched)
    = [FailJob 0%nat; Raised OnFailure 0%nat; SetPollTimer 100] /\
  _jobs (memq w1) = [0%nat] /\
  events (deliver (ProcessResolves 0) w1)
    = [FinishJob 0%nat; Raised OnSuccess 0%nat; ClearTimer 0%nat] /\
  _jobs (memq (world (deliver (ProcessResolves 0) w1))) = [].
Proof. vm_compute. repeat split. Qed.

(** ** Events of a composed program *)

Lemma bind_normal {A B} (m : M A) (k : A -> M B) (w : World) (a : A)
    (w1 : World) (t1 : list Event) :
  m w = (Normal a, w1, t1) ->
  bind m k w = (completion (k a w1), world (k a w1), t1 ++ events (k a w1)).
Proof.
  intros H. unfold bind, completion, world, events. rewrite H.
  destruct (k a w1) as [[c w2] t2]. reflexivity.
Qed.

Lemma bind_throw {A B} (m : M A) (k : A -> M B) (w : World) (e : Error)
    (w1 : World) (t1 : list Event) :
  m w = (Throw e, w1, t1) -> bind m k w = (Throw e, w1, t1).
Proof. intros H. unfold bind. rewrite H. reflexivity. Qed.

Lemma processes_app (l1 l2 : list Event) :
  processes (l1 ++ l2) = (processes l1 + processes l2)%nat.
Proof. unfold processes. rewrite List.filter_app, length_app. reflexivity. Qed.

Lemma getNextJobs_pure (now : Z) (w : World) :
  world (getNextJobs now w) = w /\ events (getNextJobs now w) = [].
Proof.
  unfold getNextJobs, bind, get, set_length, throw, ret.
  destruct (Num.truthyZ _ && _); [destruct (_ <? 0)|]; split; reflexivity.
Qed.

Lemma schedulePoll_run (w : World) :
  schedulePoll w =
  (Normal tt, with_memq (with_pollTimer true (memq w)) w,
   [SetPollTimer (_pollInterval (memq w))]).
Proof. reflexivity. Qed.

(** ** A worker whose cap is below zero *)

Lemma getNextJobs_RangeError (now : Z) (w : World) :
  _concurrency (memq w) < 0 ->
  getNextJobs now w = (Throw RangeError, w, []).
Proof.
  intros Hc. unfold getNextJobs, bind, get, Num.truthyZ.
  destruct (_concurrency (memq w) =? 0) eqn:E0; [apply Z.eqb_eq in E0; lia|].
  cbn [negb andb].
  destruct (Z.of_nat (length _) >? _concurrency (memq w)) eqn:El.
  - unfold set_length.
    destruct (_concurrency (memq w) <? 0) eqn:En; [reflexivity|].
    apply Z.ltb_ge in En. lia.
  - rewrite Z.gtb_ltb in El. apply Z.ltb_ge in El. lia.
Qed.

(** The cycle catches the error of [getNextJobs], processes nothing and
    sets the next poll. *)
Lemma work_negative_cap (now : Z) (w : World) :
  _concurrency (memq w) < 0 ->
  work now w =
  (Normal tt, with_memq (with_pollTimer true (memq w)) w,
   [SetPollTimer (_pollInterval (memq w))]).
Proof.
  intros Hc. unfold work.
  unfold bind at 1, modify at 1. unfold bind at 1, get at 1.
  unfold bind at 1, try_catch. unfold bind at 1.
  rewrite getNextJobs_RangeError by exact Hc.
  reflexivity.
Qed.

(** X9: with a cap below zero the worker is idle for good.  Every poll
    starts a cycle in which [getNextJobs] throws; [work] swallows the
    error and sets the next poll, so that the polls, however many, call
    no [process()], no hook and no storage operation, and leave the
    queue and the jobs as they were. *)
Theorem negative_cap_polls_without_processing (nows : list Z) (w : World) :
  _concurrency (memq w) < 0 ->
  _pollTimer (memq w) = true ->
  run (map (fun now => ODeliver (PollTimerFires now)) nows) w
  = (w, repeat (SetPollTimer (_pollInterval (memq w))) (length nows)).
Proof.
  intros Hc Hp. induction nows as [|now nows IH]; [reflexivity|].
  cbn [map run length repeat].
  assert (E : exec (ODeliver (PollTimerFires now)) w =
              (Normal tt, w, [SetPollTimer (_pollInterval (memq w))])).
  { simpl. unfold bind, get. rewrite Hp.
    rewrite (work_negative_cap now w Hc).
    destruct w as [h [n c p i t js] ts a]. simpl in *. subst p. reflexivity. }
  rewrite E. cbn [world events fst snd]. rewrite IH. reflexivity.
Qed.

(** Two jobs wait in a queue whose cap was set to [-1]; the worker was
    started and polls twice. *)
Lemma negative_cap_polls_without_processing_witness :
  let w := fst (run [OSetConcurrency (-1); OWork 100] two_jobs) in
  run [ODeliver (PollTimerFires 200); ODeliver (PollTimerFires 300)] w
  = (w, [SetPollTimer 100; SetPollTimer 100]).
Proof.
  intros w.
  apply (negative_cap_polls_without_processing [200; 300] w).
  - vm_compute. reflexivity.
  - vm_compute. reflexivity.
Defined.

(** ** The cap, set and used *)

(** With a positive cap, [getNextJobs] answers at most that many jobs. *)
Lemma getNextJobs_length (now : Z) (w : World) (l : list ref) :
  0 < _concurrency (memq w) ->
  completion (getNextJobs now w) = Normal l ->
  Z.of_nat (length l) <= _concurrency (memq w).
Proof.
  intros Hc. unfold getNextJobs, bind, get, completion.
  destruct (Num.truthyZ _ && (Z.of_nat (length _) >? _)) eqn:E; simpl.
  - unfold set_length. destruct (_ <? 0) eqn:En; simpl; [discriminate|].
    intros [= <-]. rewrite length_take. lia.
  - intros [= <-]. apply andb_false_iff in E as [E|E].
    + unfold Num.truthyZ in E. apply negb_false_iff, Z.eqb_eq in E. lia.
    + rewrite Z.gtb_ltb in E. apply Z.ltb_ge in E. exact E.
Qed.

(** X6: after [setConcurrency(n)] with [n] above zero, [getNextJobs]
    answers at most [n] jobs, all of them stored; [setConcurrency(0)]
    is no way to lift the cap: [getNextJobs] answers as before it. *)
Theorem setConcurrency_caps_getNextJobs (n now : Z) (w : World) (l : list ref) :
  0 < n ->
  completion (getNextJobs now (with_memq (setConcurrency n (memq w)) w)) = Normal l ->
  Z.of_nat (length l) <= n /\
  (forall r, In r l -> In r (_jobs (memq w))) /\
  getNextJobs now (with_memq (setConcurrency 0 (memq w)) w)
  = (completion (getNextJobs now w),
     with_memq (setConcurrency 0 (memq w)) w, events (getNextJobs now w)).
Proof.
  intros Hn Hl.
  assert (Hc : _concurrency (memq (with_memq (setConcurrency n (memq w)) w)) = n).
  { simpl. unfold Num.or_elseZ, Num.truthyZ.
    destruct (n =? 0) eqn:E; [apply Z.eqb_eq in E; lia | reflexivity]. }
  split; [|split].
  - rewrite <- Hc. apply (getNextJobs_length now _ l); [rewrite Hc; exact Hn | exact Hl].
  - intros r Hr. exact (proj1 (getNextJobs_In now _ l r Hl Hr)).
  - unfold getNextJobs, bind, get, completion, events. simpl.
    unfold Num.or_elseZ. simpl.
    destruct (Num.truthyZ _ && _); [|reflexivity].
    unfold set_length. destruct (_ <? 0); reflexivity.
Qed.

(** Two jobs are due; the cap is set to 1. *)
Lemma setConcurrency_caps_getNextJobs_witness :
  Z.of_nat (length [0%nat]) <= 1 /\
  (forall r, In r [0%nat] -> In r (_jobs (memq two_jobs))) /\
  getNextJobs 100 (with_memq (setConcurrency 0 (memq two_jobs)) two_jobs)
  = (completion (getNextJobs 100 two_jobs),
     with_memq (setConcurrency 0 (memq two_jobs)) two_jobs,
     events (getNextJobs 100 two_jobs)).
Proof.
  apply (setConcurrency_caps_getNextJobs 1 100 two_jobs [0%nat]).
  - lia.
  - vm_compute. reflexivity.
Defined.

(** ** A cancelled job handed to [processJob] *)

(** X10: [processJob] of a cancelled job never calls [process()] and
    starts no timer.  With attempts left it does nothing at all; a
    cancelled job that is out of attempts is failed forever, the test
    of the attempts coming first. *)
Theorem processJob_cancelled (w : World) (r : ref) (j : BaseJob) :
  heap w !! r = Some j ->
  isCancelled j = true ->
  (triedMaxAttempts j = false -> processJob r w = (Normal tt, w, [])) /\
  (triedMaxAttempts j = true ->
   events (processJob r w) = [FailJobForever r; Raised OnPermanentFailure r]) /\
  ~ In (Process r) (events (processJob r w)) /\
  tasks (world (processJob r w)) = tasks w.
Proof.
  intros Hj Hc. unfold processJob, try_catch.
  destruct (triedMaxAttempts j) eqn:Ht.
  - rewrite (executor_exhausted w r j Hj Ht), removeJobFromQueue_run. simpl.
    repeat split; try discriminate.
    intros [H|[H|[]]]; discriminate H.
  - rewrite (executor_cancelled w r j Hj Ht Hc). simpl.
    repeat split; try discriminate. tauto.
Qed.

(** The first of two jobs, cancelled. *)
Lemma processJob_cancelled_witness :
  let w := fst (run [OCancel 0%nat] two_jobs) in
  let j := set_cancelled (newJob 100 Returns Returns Returns) in
  (triedMaxAttempts j = false -> processJob 0%nat w = (Normal tt, w, [])) /\
  (triedMaxAttempts j = true ->
   events (processJob 0%nat w)
   = [FailJobForever 0%nat; Raised OnPermanentFailure 0%nat]) /\
  ~ In (Process 0%nat) (events (processJob 0%nat w)) /\
  tasks (world (processJob 0%nat w)) = tasks w.
Proof.
  intros w j.
  apply (processJob_cancelled w 0%nat j).
  - vm_compute. reflexivity.
  - reflexivity.
Defined.

(** ** A failed job *)

Lemma eligible_later (now now' : Z) (j : BaseJob) :
  eligible now j = true -> now <= now' -> eligible now' j = true.
Proof.
  unfold eligible, isAvailable, isStillLocked. intros H Hle.
  apply andb_prop in H as [H Hc]. apply andb_prop in H as [Ha Hl].
  apply negb_true_iff in Hl. apply Z.geb_le in Ha. apply Z.ltb_ge in Hl.
  rewrite Hc, andb_true_r. apply andb_true_intro. split.
  - apply Z.geb_le. lia.
  - apply negb_true_iff, Z.ltb_ge. lia.
Qed.

Lemma eligible_stored_offered (now : Z) (w : World) (r : ref) (j : BaseJob) (l : list ref) :
  heap w !! r = Some j -> In r (_jobs (memq w)) -> eligible now j = true ->
  Z.of_nat (length (_jobs (memq w))) <= _concurrency (memq w) ->
  completion (getNextJobs now w) = Normal l -> In r l.
Proof.
  intros Hj Hin He Hc. rewrite (getNextJobs_uncut now w Hc). simpl.
  intros [= <-]. apply In_sorted_eligible. split; [exact Hin|].
  exists j. split; [exact Hj|].
  unfold eligible in He. apply andb_prop in He as [He Hcn].
  apply andb_prop in He as [Ha Hl]. apply negb_true_iff in Hcn, Hl. auto.
Qed.

(** X11: a job that failed is retried at once.  Take a stored job that
    is eligible at [now] and has attempts left, and let [processJob]
    dispatch it; whether [process()] rejects or the timer of the job
    fires, [failJob] leaves the job object and the array as they were,
    so the job is eligible at every later time, the time of the failure
    included, and [getNextJobs] answers it again (in a queue the cap
    does not cut): neither the failure nor [retryAfter] locks it. *)
Theorem failed_job_is_offered_again (w : World) (r : ref) (j : BaseJob) (e : Error)
    (now now' : Z) :
  heap w !! r = Some j ->
  In r (_jobs (memq w)) ->
  eligible now j = true ->
  triedMaxAttempts j = false ->
  now <= now' ->
  Z.of_nat (length (_jobs (memq w))) <= _concurrency (memq w) ->
  let t := length (tasks w) in
  let w1 := world (processJob r w) in
  let wr := world (processRejects t e w1) in
  let wt := world (timerFires t w1) in
  heap wr !! r = Some j /\ _jobs (memq wr) = _jobs (memq w) /\
  heap wt !! r = Some j /\ _jobs (memq wt) = _jobs (memq w) /\
  eligible now' j = true /\
  (forall l, completion (getNextJobs now' wr) = Normal l -> In r l) /\
  (forall l, completion (getNextJobs now' wt) = Normal l -> In r l).
Proof.
  intros Hj Hin He Ht Hle Hc t w1 wr wt.
  assert (Hcn : isCancelled j = false).
  { unfold eligible in He. apply andb_prop in He as [_ Hcn].
    apply negb_true_iff in Hcn. exact Hcn. }
  assert (E1 : w1 = with_tasks (tasks w ++ [mkTask r false true true]) w).
  { unfold w1. rewrite (processJob_run w r j Hj Ht Hcn). reflexivity. }
  assert (Htk : tasks w1 !! t = Some (mkTask r false true true)).
  { rewrite E1. simpl. unfold t. apply list_lookup_middle. reflexivity. }
  assert (Hj1 : heap w1 !! r = Some j) by (rewrite E1; exact Hj).
  assert (Er : wr = with_tasks (alter set_settled t
                                 (alter (set_running false) t (tasks w1))) w1).
  { unfold wr.
    rewrite (processRejects_run w1 t (mkTask r false true true) j e Htk eq_refl eq_refl Hj1).
    reflexivity. }
  assert (Et : wt = with_tasks (alter set_settled t
                                 (alter (set_timer false) t (tasks w1))) w1).
  { unfold wt.
    rewrite (timerFires_run w1 t (mkTask r false true true) j Htk eq_refl eq_refl Hj1).
    reflexivity. }
  assert (He' : eligible now' j = true) by exact (eligible_later now now' j He Hle).
  assert (Hqr : memq wr = memq w) by (rewrite Er, E1; reflexivity).
  assert (Hqt : memq wt = memq w) by (rewrite Et, E1; reflexivity).
  assert (Hhr : heap wr = heap w) by (rewrite Er, E1; reflexivity).
  assert (Hht : heap wt = heap w) by (rewrite Et, E1; reflexivity).
  split; [rewrite Hhr; exact Hj|].
  split; [rewrite Hqr; reflexivity|].
  split; [rewrite Hht; exact Hj|].
  split; [rewrite Hqt; reflexivity|].
  split; [exact He'|].
  split; intros l Hl.
  - apply (eligible_stored_offered now' wr r j l); rewrite ?Hhr, ?Hqr; assumption.
  - apply (eligible_stored_offered now' wt r j l); rewrite ?Hht, ?Hqt; assumption.
Qed.

(** The first of two jobs, with a retry wait of 60 seconds, fails at
    the time 100000 and is asked for at that time again. *)
Lemma failed_job_is_offered_again_witness :
  let w := fst (run [ORetryAfter 0%nat 60] two_jobs) in
  let j := retryAfter 60 (newJob 100 Returns Returns Returns) in
  let w1 := world (processJob 0%nat w) in
  let wr := world (processRejects 0 (UserError 1) w1) in
  let wt := world (timerFires 0 w1) in
  heap wr !! 0%nat = Some j /\ _jobs (memq wr) = _jobs (memq w) /\
  heap wt !! 0%nat = Some j /\ _jobs (memq wt) = _jobs (memq w) /\
  eligible 100000 j = true /\
  (forall l, completion (getNextJobs 100000 wr) = Normal l -> In 0%nat l) /\
  (forall l, completion (getNextJobs 100000 wt) = Normal l -> In 0%nat l).
Proof.
  intros w j.
  apply (failed_job_is_offered_again w 0%nat j (UserError 1) 100000 100000).
  - vm_compute. reflexivity.
  - vm_compute. left. reflexivity.
  - vm_compute. reflexivity.
  - vm_compute. reflexivity.
  - lia.
  - vm_compute. discriminate.
Defined.

(** ** [insert], then [finishJob] or [getNextJobs] *)

Lemma insert_run (r : ref) (w : World) :
  insert r w =
  (Normal VTrue, with_memq (with_jobs (_jobs (memq w) ++ [r]) (memq w)) w,
   [InsertJob r]).
Proof. reflexivity. Qed.

(** X12: [insert] and then [finishJob] of the same job, new to the
    array, give the array back as it was, unless exactly one job was
    stored before: then the new job is at index 1 and stays there. *)
Theorem insert_then_finishJob (w : World) (r : ref) (j : BaseJob) :
  heap w !! r = Some j ->
  ~ In r (_jobs (memq w)) ->
  let w' := world (finishJob r (world (insert r w))) in
  (length (_jobs (memq w)) <> 1%nat -> _jobs (memq w') = _jobs (memq w)) /\
  (length (_jobs (memq w)) = 1%nat -> _jobs (memq w') = _jobs (memq w) ++ [r]).
Proof.
  intros Hj Hn w'. unfold w'.
  rewrite (finishJob_run r j (world (insert r w)) Hj), removeJobFromQueue_run.
  simpl. split; intros Hlen.
  - rewrite (removed_first_place r (_jobs (memq w)) [] Hn Hlen). apply app_nil_r.
  - destruct (_jobs (memq w)) as [|a [|b l]]; try discriminate Hlen.
    apply removed_second. intros ->. apply Hn. left. reflexivity.
Qed.

(** A third job, created beside the two that are stored. *)
Lemma insert_then_finishJob_witness :
  let w := fst (run [ONew 100 Returns Returns Returns] two_jobs) in
  let w' := world (finishJob 2%nat (world (insert 2%nat w))) in
  (length (_jobs (memq w)) <> 1%nat -> _jobs (memq w') = _jobs (memq w)) /\
  (length (_jobs (memq w)) = 1%nat -> _jobs (memq w') = _jobs (memq w) ++ [2%nat]).
Proof.
  intros w.
  apply (insert_then_finishJob w 2%nat (newJob 100 Returns Returns Returns)).
  - vm_compute. reflexivity.
  - vm_compute. intros [H|[H|[]]]; discriminate H.
Defined.

(** X13: a job that is eligible and inserted into a queue with room
    under the cap is in the next answer of [getNextJobs], which is the
    answer before the [insert] with this job added. *)
Theorem insert_then_getNextJobs (w : World) (r : ref) (j : BaseJob) (now : Z) :
  heap w !! r = Some j ->
  eligible now j = true ->
  Z.of_nat (length (_jobs (memq w))) < _concurrency (memq w) ->
  completion (insert r w) = Normal VTrue /\
  exists l0 l,
    completion (getNextJobs now w) = Normal l0 /\
    completion (getNextJobs now (world (insert r w))) = Normal l /\
    Permutation l (r :: l0) /\ In r l.
Proof.
  intros Hj He Hc. split; [reflexivity|].
  rewrite (getNextJobs_uncut now w) by lia.
  rewrite (getNextJobs_uncut now (world (insert r w)))
    by (simpl; rewrite length_app; simpl; lia).
  eexists. eexists. split; [reflexivity|]. split; [reflexivity|].
  simpl.
  assert (Hp : Permutation
            (sort (byAvailableAt w)
               (List.filter (at_ref w (eligible now) false) (_jobs (memq w) ++ [r])))
            (r :: sort (byAvailableAt w)
               (List.filter (at_ref w (eligible now) false) (_jobs (memq w))))).
  { rewrite <- !sort_perm. rewrite List.filter_app. simpl.
    unfold at_ref at 2. rewrite Hj, He.
    rewrite Permutation_app_comm. reflexivity. }
  split; [exact Hp|].
  apply (Permutation_in r (Permutation_sym Hp)). left. reflexivity.
Qed.

(** One job is stored, a second is created and inserted. *)
Lemma insert_then_getNextJobs_witness :
  let w := fst (run [ONew 100 Returns Returns Returns;
                     ONew 90 Returns Returns Returns; OInsert 0%nat]
                    (initial "mail")) in
  completion (insert 1%nat w) = Normal VTrue /\
  exists l0 l,
    completion (getNextJobs 100 w) = Normal l0 /\
    completion (getNextJobs 100 (world (insert 1%nat w))) = Normal l /\
    Permutation l (1%nat :: l0) /\ In 1%nat l.
Proof.
  intros w.
  apply (insert_then_getNextJobs w 1%nat (newJob 90 Returns Returns Returns) 100).
  - vm_compute. reflexivity.
  - vm_compute. reflexivity.
  - vm_compute. reflexivity.
Defined.

(** ** Jobs the cap keeps out *)

Lemma filter_length_perm {A} (p : A -> bool) (l l' : list A) :
  Permutation l l' -> length (List.filter p l) = length (List.filter p l').
Proof.
  induction 1 as [|x l l' _ IH|x y l|l l' l'' _ IH1 _ IH2]; simpl.
  - reflexivity.
  - destruct (p x); simpl; congruence.
  - destruct (p x), (p y); reflexivity.
  - congruence.
Qed.

Section Prefix.
Context {A : Type} (key : A -> Z).

(** In a sorted list, an element among the first [n] has fewer than [n]
    elements of a smaller key in the whole list. *)
Lemma sorted_take_smaller (r : A) (l : list A) (n : nat) :
  StronglySorted (key_le key) l ->
  In r (take n l) ->
  Nat.lt (length (List.filter (fun x => key x <? key r) l)) n.
Proof.
  intros Hs. revert n. induction Hs as [|y l Hl IH Hy]; intros n Hin.
  - destruct n; destruct Hin.
  - destruct n as [|n]; [destruct Hin|]. simpl in Hin. destruct Hin as [->|Hin].
    + simpl. rewrite Z.ltb_irrefl.
      assert (E : List.filter (fun x => key x <? key r) l = []).
      { clear IH Hl. induction Hy as [|z l Hz Hy IH]; [reflexivity|].
        simpl. unfold key_le in Hz.
        destruct (key z <? key r) eqn:E; [apply Z.ltb_lt in E; lia | exact IH]. }
      rewrite E. simpl. lia.
    + specialize (IH n Hin). simpl.
      destruct (key y <? key r); simpl; lia.
Qed.
End Prefix.

(** X14: the cap starves late jobs.  With a cap above zero, a job is
    not in the answer of [getNextJobs] as long as at least that many
    eligible stored jobs are due strictly before it. *)
Theorem getNextJobs_starves (now : Z) (w : World) (r : ref) (l : list ref) :
  0 < _concurrency (memq w) ->
  _concurrency (memq w) <= Z.of_nat (length (due_before w now r)) ->
  completion (getNextJobs now w) = Normal l ->
  ~ In r l.
Proof.
  intros Hc Hb Hl Hr.
  rewrite getNextJobs_run in Hl by lia. simpl in Hl.
  destruct (_concurrency (memq w) =? 0) eqn:E0; [apply Z.eqb_eq in E0; lia|].
  injection Hl as <-.
  pose proof (sorted_take_smaller (at_ref w availableAt 0) r _ _
                (sort_sorted (at_ref w availableAt 0) _) Hr) as Hlt.
  rewrite <- (filter_length_perm _ _ _ (sort_perm (byAvailableAt w) _)) in Hlt.
  unfold due_before in Hb. lia.
Qed.

(** Three jobs due at 100, 110 and 95, asked for at 120 under a cap of
    2: the job due at 110 is eligible and left out. *)
Lemma getNextJobs_starves_witness :
  at_ref three_jobs (eligible 120) false 1%nat = true /\
  ~ In 1%nat [2%nat; 0%nat].
Proof.
  split; [vm_compute; reflexivity|].
  apply (getNextJobs_starves 120 three_jobs 1%nat [2%nat; 0%nat]).
  - vm_compute. reflexivity.
  - vm_compute. discriminate.
  - vm_compute. reflexivity.
Defined.

(** ** What a cycle of the worker processes *)

Lemma deref_dead (r : ref) (w : World) :
  heap w !! r = None -> deref r w = (Throw TypeError, w, []).
Proof. intros H. unfold deref, bind, get. rewrite H. reflexivity. Qed.

(** A reference that holds no object: the executor throws, and so does
    the [failJob] of the [catch]. *)
Lemma processJob_dead (r : ref) (w : World) :
  heap w !! r = None -> processJob r w = (Throw TypeError, w, [FailJob r]).
Proof.
  intros H. unfold processJob, try_catch, executor.
  rewrite (bind_throw _ _ w TypeError w [] (deref_dead r w H)).
  unfold failJob. unfold bind at 1, bind at 1, emit.
  rewrite (bind_throw _ _ w TypeError w [] (deref_dead r w H)). reflexivity.
Qed.

(** What one [processJob] does, by what the reference holds. *)
Lemma processJob_cases (r : ref) (w : World) :
  heap (world (processJob r w)) = heap w /\
  (events (processJob r w) = [SetTimer r (_jobTimeout (memq w)); Process r] /\
   (exists j, heap w !! r = Some j /\ triedMaxAttempts j = false /\
              isCancelled j = false)
   \/ processes (events (processJob r w)) = 0%nat /\
      forall r', ~ In (Process r') (events (processJob r w))).
Proof.
  destruct (heap w !! r) as [j|] eqn:Hj.
  - destruct (triedMaxAttempts j) eqn:Ht; [|destruct (isCancelled j) eqn:Hc].
    + unfold processJob, try_catch.
      rewrite (executor_exhausted w r j Hj Ht), removeJobFromQueue_run. simpl.
      split; [reflexivity|]. right. split; [reflexivity|].
      intros r' [H|[H|[]]]; discriminate H.
    + unfold processJob, try_catch.
      rewrite (executor_cancelled w r j Hj Ht Hc). simpl.
      split; [reflexivity|]. right. split; [reflexivity|]. intros r' [].
    + rewrite (processJob_run w r j Hj Ht Hc). simpl.
      split; [reflexivity|]. left. split; [reflexivity|]. eauto.
  - rewrite (processJob_dead r w Hj). simpl.
    split; [reflexivity|]. right. split; [reflexivity|].
    intros r' [H|[]]. discriminate H.
Qed.

Lemma forEach_cons {A} (f : A -> M unit) (x : A) (l : list A) (w : World) :
  forEach f (x :: l) w = bind (f x) (fun _ => forEach f l) w.
Proof. reflexivity. Qed.

Lemma forEach_processJob (jobs : list ref) (w : World) :
  (processes (events (forEach processJob jobs w)) <= length jobs)%nat /\
  forall r, In (Process r) (events (forEach processJob jobs w)) ->
            In r jobs /\
            exists j, heap w !! r = Some j /\ triedMaxAttempts j = false /\
                      isCancelled j = false.
Proof.
  revert w. induction jobs as [|x jobs IH]; intros w.
  - simpl. split; [unfold processes; simpl; lia | intros r []].
  - rewrite forEach_cons.
    destruct (processJob_cases x w) as [Hh Hx].
    destruct (processJob x w) as [[[[]|e] w1] t1] eqn:E;
      unfold world, events in Hh, Hx; cbn [fst snd] in Hh, Hx.
    + rewrite (bind_normal _ _ w tt w1 t1 E). cbn [events snd].
      destruct (IH w1) as [IHn IHp]. rewrite processes_app. cbn [length].
      split.
      * destruct Hx as [[-> _]|[Hz _]]; [unfold processes at 1; simpl; lia|].
        rewrite Hz. lia.
      * intros r Hr. apply in_app_or in Hr as [Hr|Hr].
        -- destruct Hx as [[-> Hj]|[_ Hn]]; [|destruct (Hn r Hr)].
           destruct Hr as [Hr|[Hr|[]]]; [discriminate Hr|].
           injection Hr as <-. split; [left; reflexivity | exact Hj].
        -- destruct (IHp r Hr) as [Hin Hj]. split; [right; exact Hin|].
           rewrite <- Hh. exact Hj.
    + rewrite (bind_throw _ _ w e w1 t1 E). cbn [events snd length].
      split.
      * destruct Hx as [[-> _]|[Hz _]]; [unfold processes; simpl; lia|].
        rewrite Hz. lia.
      * intros r Hr.
        destruct Hx as [[-> Hj]|[_ Hn]]; [|destruct (Hn r Hr)].
        destruct Hr as [Hr|[Hr|[]]]; [discriminate Hr|].
        injection Hr as <-. split; [left; reflexivity | exact Hj].
Qed.

Lemma resume_processes (w : World) :
  processes (events (resume w)) = 0%nat /\
  forall r, ~ In (Process r) (events (resume w)).
Proof.
  unfold resume, bind, get.
  destruct (awaiting w) as [[first next]|]; [|split; [reflexivity|intros r []]].
  destruct (forallb _ _); [|split; [reflexivity|intros r []]].
  simpl. split; [reflexivity|]. intros r [H|[]]. discriminate H.
Qed.

(** The events of a cycle: those of the calls of [processJob] on what
    [getNextJobs] answered, and the poll timer at most. *)
Lemma work_events (now : Z) (w : World) :
  let w' := with_memq (with_pollTimer false (memq w)) w in
  exists tail,
    processes tail = 0%nat /\ (forall r, ~ In (Process r) tail) /\
    ((exists e, completion (getNextJobs now w') = Throw e) /\
     events (work now w) = tail \/
     exists l, completion (getNextJobs now w') = Normal l /\
               events (work now w) = events (forEach processJob l w') ++ tail).
Proof.
  intros w'. remember (events (work now w)) as ev eqn:Hev. revert Hev.
  unfold work.
  unfold bind at 1, modify at 1. fold w'. unfold bind at 1, get at 1.
  unfold bind at 1, try_catch. unfold bind at 1.
  destruct (getNextJobs_pure now w') as [Hw He].
  destruct (getNextJobs now w') as [[[l|e] w1] t1] eqn:E;
    unfold world, events in Hw, He; cbn [fst snd] in Hw, He; subst w1 t1.
  - unfold bind at 1.
    destruct (forEach processJob l w') as [[[[]|e] w1] t1] eqn:F.
    + cbn [ret app]. unfold bind at 1, modify at 1.
      match goal with |- context [resume ?x] =>
        destruct (resume_processes x) as [Hn Hp];
        destruct (resume x) as [[c w2] t2] end.
      cbn [events snd] in *. rewrite app_nil_r. intros ->.
      exists t2. split; [exact Hn|]. split; [exact Hp|].
      right. exists l. split; [reflexivity | rewrite F; reflexivity].
    + cbn [ret app]. rewrite schedulePoll_run. cbn [events snd].
      rewrite app_nil_r. intros ->.
      exists [SetPollTimer (_pollInterval (memq w1))].
      split; [reflexivity|]. split; [intros r [H|[]]; discriminate H|].
      right. exists l. split; [reflexivity | rewrite F; reflexivity].
  - cbn [ret app]. rewrite schedulePoll_run. cbn [events snd]. intros ->.
    exists [SetPollTimer (_pollInterval (memq w'))].
    split; [reflexivity|]. split; [intros r [H|[]]; discriminate H|].
    left. split; [exists e|]; reflexivity.
Qed.

(** X15: a cycle of the worker calls [process()] only on jobs that are
    stored, due, not locked, not cancelled and have attempts left. *)
Theorem work_processes_only_ready_jobs (now : Z) (w : World) (r : ref) :
  In (Process r) (events (work now w)) ->
  In r (_jobs (memq w)) /\
  exists j, heap w !! r = Some j /\ isAvailable now j = true /\
            isStillLocked now j = false /\ isCancelled j = false /\
            triedMaxAttempts j = false.
Proof.
  intros Hr.
  destruct (work_events now w) as (tail & Hn & Hp & [[_ E]|(l & Hl & E)]).
  { rewrite E in Hr. destruct (Hp r Hr). }
  rewrite E in Hr. clear E.
  set (w' := with_memq (with_pollTimer false (memq w)) w) in *.
  destruct (forEach_processJob l w') as [_ Hin].
  apply in_app_or in Hr as [Hr|Hr]; [|destruct (Hp r Hr)].
  destruct (Hin r Hr) as [Hrl (j & Hj & Ht & Hc)].
  destruct (getNextJobs_In now w' l r Hl Hrl) as [Hs (j' & Hj' & Ha & Hlk & _)].
  split; [exact Hs|]. exists j.
  assert (j' = j) by congruence. subst j'.
  repeat split; assumption.
Qed.

(** Of three jobs due at 100, 110 and 95, the cycle at 100 processes
    the third. *)
Lemma work_processes_only_ready_jobs_witness :
  In 2%nat (_jobs (memq three_jobs)) /\
  exists j, heap three_jobs !! 2%nat = Some j /\ isAvailable 100 j = true /\
            isStillLocked 100 j = false /\ isCancelled j = false /\
            triedMaxAttempts j = false.
Proof.
  apply (work_processes_only_ready_jobs 100 three_jobs 2%nat).
  vm_compute. right. left. reflexivity.
Defined.

(** X16: with a cap above zero, a cycle of the worker calls
    [process()] at most that many times. *)
Theorem work_processes_at_most_cap (now : Z) (w : World) :
  0 < _concurrency (memq w) ->
  Z.of_nat (processes (events (work now w))) <= _concurrency (memq w).
Proof.
  intros Hc.
  destruct (work_events now w) as (tail & Hn & Hp & [[_ E]|(l & Hl & E)]).
  { rewrite E, Hn. lia. }
  rewrite E. clear E.
  set (w' := with_memq (with_pollTimer false (memq w)) w) in *.
  destruct (forEach_processJob l w') as [Hlen _].
  rewrite processes_app, Hn.
  pose proof (getNextJobs_length now w' l Hc Hl) as Hcap.
  change (_concurrency (memq w')) with (_concurrency (memq w)) in Hcap. lia.
Qed.

(** Three jobs, all due at 120, and a cap of 2. *)
Lemma work_processes_at_most_cap_witness :
  processes (events (work 120 three_jobs)) = 2%nat /\
  Z.of_nat (processes (events (work 120 three_jobs))) <= 2.
Proof.
  split; [vm_compute; reflexivity|].
  apply (work_processes_at_most_cap 120 three_jobs).
  vm_compute. reflexivity.
Defined.

(** ** The outcomes of one call of [processJob] *)

Lemma resume_tasks (w : World) :
  completion (resume w) = Normal tt /\
  tasks (world (resume w)) = tasks w /\ heap (world (resume w)) = heap w /\
  outcomes (events (resume w)) = [].
Proof.
  unfold resume, bind, get.
  destruct (awaiting w) as [[first next]|]; [|repeat split].
  destruct (forallb _ _); repeat split.
Qed.

Lemma timerFires_spent (w : World) (t : nat) (tk : Task) :
  tasks w !! t = Some tk -> t_timer tk = false ->
  timerFires t w = (Normal tt, w, []).
Proof.
  intros Ht Htm. unfold timerFires, bind, get. rewrite Ht, Htm. reflexivity.
Qed.

Lemma timerFires_settled (w : World) (t : nat) (tk : Task) :
  tasks w !! t = Some tk -> t_timer tk = true -> t_settled tk = true ->
  timerFires t w =
  (Normal tt, with_tasks (alter (set_timer false) t (tasks w)) w, []).
Proof.
  intros Ht Htm Hs. unfold timerFires. unfold bind at 1, get.
  rewrite Ht, Htm. unfold bind, update_task at 1, modify at 1.
  erewrite (reject_settled _ t (set_timer false tk)).
  - reflexivity.
  - simpl. rewrite list_lookup_alter_eq, Ht. reflexivity.
  - exact Hs.
Qed.

Lemma processRejects_stopped (w : World) (t : nat) (tk : Task) (e : Error) :
  tasks w !! t = Some tk -> t_running tk = false ->
  processRejects t e w = (Normal tt, w, []).
Proof.
  intros Ht Hr. unfold processRejects, bind, get. rewrite Ht, Hr. reflexivity.
Qed.

Lemma processRejects_settled (w : World) (t : nat) (tk : Task) (e : Error) :
  tasks w !! t = Some tk -> t_running tk = true -> t_settled tk = true ->
  processRejects t e w =
  (Normal tt, with_tasks (alter (set_running false) t (tasks w)) w, []).
Proof.
  intros Ht Hr Hs. unfold processRejects. unfold bind at 1, get.
  rewrite Ht, Hr. unfold bind, update_task at 1, modify at 1.
  erewrite (reject_settled _ t (set_running false tk)).
  - reflexivity.
  - simpl. rewrite list_lookup_alter_eq, Ht. reflexivity.
  - exact Hs.
Qed.

Lemma processResolves_stopped (w : World) (t : nat) (tk : Task) :
  tasks w !! t = Some tk -> t_running tk = false ->
  processResolves t w = (Normal tt, w, []).
Proof.
  intros Ht Hr. unfold processResolves, bind, get. rewrite Ht, Hr. reflexivity.
Qed.

Lemma deliver_task_step (s : Stimulus) (w : World) (t : nat) (tk : Task) (j : BaseJob) :
  for_task t s = true ->
  tasks w !! t = Some tk -> heap w !! t_job tk = Some j ->
  exists tk',
    tasks (world (deliver s w)) !! t = Some tk' /\ t_job tk' = t_job tk /\
    heap (world (deliver s w)) = heap w /\
    task_step (t_job tk) tk tk' (outcomes (events (deliver s w))).
Proof.
  intros Hs Ht Hj.
  assert (Hd : forall (m : M unit) w1 t1 tk',
             m w = (Normal tt, w1, t1) ->
             tasks w1 !! t = Some tk' -> t_job tk' = t_job tk ->
             heap w1 = heap w ->
             task_step (t_job tk) tk tk' (outcomes t1) ->
             exists tk',
               tasks (world (bind m (fun _ => resume) w)) !! t = Some tk' /\
               t_job tk' = t_job tk /\
               heap (world (bind m (fun _ => resume) w)) = heap w /\
               task_step (t_job tk) tk tk'
                 (outcomes (events (bind m (fun _ => resume) w)))).
  { intros m w1 t1 tk' E Ht' Hjob Hh Hstep.
    rewrite (bind_normal _ _ w tt w1 t1 E).
    destruct (resume_tasks w1) as (_ & Hts & Hhp & Hev).
    destruct (resume w1) as [[c w2] t2].
    unfold world, events in *. cbn [fst snd] in *.
    exists tk'. rewrite Hts, Hhp. unfold outcomes in *.
    rewrite List.filter_app, Hev, app_nil_r. auto. }
  destruct s as [t'|t'|t' e|now]; simpl in Hs; try discriminate;
    apply Nat.eqb_eq in Hs; subst t'; cbn [deliver].
  - destruct (t_timer tk) eqn:Htm; [destruct (t_settled tk) eqn:Hst|].
    + eapply Hd; [exact (timerFires_settled w t tk Ht Htm Hst)|..].
      * simpl. rewrite list_lookup_alter_eq, Ht. reflexivity.
      * reflexivity.
      * reflexivity.
      * apply step_silent; simpl; [congruence | congruence | auto].
    + eapply Hd; [exact (timerFires_run w t tk j Ht Htm Hst Hj)|..].
      * simpl. rewrite !list_lookup_alter_eq, Ht. reflexivity.
      * reflexivity.
      * reflexivity.
      * apply step_failed; simpl; auto.
    + eapply Hd; [exact (timerFires_spent w t tk Ht Htm)|..].
      * exact Ht.
      * reflexivity.
      * reflexivity.
      * apply step_silent; auto.
  - destruct (t_running tk) eqn:Hr.
    + eapply Hd; [exact (processResolves_run w t tk j Ht Hr Hj)|..].
      * simpl. rewrite !list_lookup_alter_eq, Ht. reflexivity.
      * reflexivity.
      * reflexivity.
      * apply step_finished; simpl; auto.
    + eapply Hd; [exact (processResolves_stopped w t tk Ht Hr)|..].
      * exact Ht.
      * reflexivity.
      * reflexivity.
      * apply step_silent; auto.
  - destruct (t_running tk) eqn:Hr; [destruct (t_settled tk) eqn:Hst|].
    + eapply Hd; [exact (processRejects_settled w t tk e Ht Hr Hst)|..].
      * simpl. rewrite list_lookup_alter_eq, Ht. reflexivity.
      * reflexivity.
      * reflexivity.
      * apply step_silent; simpl; [congruence | congruence | intros; discriminate].
    + eapply Hd; [exact (processRejects_run w t tk j e Ht Hr Hst Hj)|..].
      * simpl. rewrite !list_lookup_alter_eq, Ht. reflexivity.
      * reflexivity.
      * reflexivity.
      * apply step_failed; simpl; [auto | auto | intros; discriminate].
    + eapply Hd; [exact (processRejects_stopped w t tk e Ht Hr)|..].
      * exact Ht.
      * reflexivity.
      * reflexivity.
      * apply step_silent; auto.
Qed.

Lemma outcomes_of_task (ss : list Stimulus) (w : World) (t : nat) (tk : Task)
    (j : BaseJob) :
  tasks w !! t = Some tk -> heap w !! t_job tk = Some j ->
  forallb (for_task t) ss = true ->
  exists a b : bool,
    outcomes (snd (run (map ODeliver ss) w))
    = (if a then [FailJob (t_job tk)] else [])
        ++ (if b then [FinishJob (t_job tk)] else []) /\
    (a = true -> t_settled tk = false) /\
    (b = true -> t_running tk = true).
Proof.
  revert w tk. induction ss as [|s ss IH]; intros w tk Ht Hj Hss.
  - exists false, false. repeat split; discriminate.
  - cbn [forallb] in Hss. apply andb_prop in Hss as [Hs Hss].
    destruct (deliver_task_step s w t tk j Hs Ht Hj) as (tk' & Ht' & Hjob & Hh & Hstep).
    cbn [map run snd exec]. unfold outcomes at 1. rewrite List.filter_app.
    fold (outcomes (events (deliver s w))).
    fold (outcomes (run (map ODeliver ss) (world (deliver s w))).2).
    assert (Hj' : heap (world (deliver s w)) !! t_job tk' = Some j)
      by (rewrite Hh, Hjob; exact Hj).
    destruct (IH _ tk' Ht' Hj' Hss) as (a & b & E & Ha & Hb).
    rewrite E, Hjob.
    inversion Hstep as [Hs1 Hn1 Hr1 Ho|Hs0 Hs1 Hr1 Ho|Hr0 Hr1 Hs1 Ho]; cbn [app].
    + exists a, b. split; [reflexivity|]. split; [|auto].
      intros Ha'. rewrite <- Hs1. auto.
    + destruct a; [specialize (Ha eq_refl); congruence|].
      exists true, b. split; [reflexivity|]. split; auto.
    + destruct a; [specialize (Ha eq_refl); congruence|].
      destruct b; [specialize (Hb eq_refl); congruence|].
      exists false, true. split; [reflexivity|]. split; [discriminate | auto].
Qed.

(** X17: one call of [processJob] tells the queue at most one failure
    and at most one success, and never a failure after a success.
    Whatever the timer of the call and the promise of [process()]
    deliver, in whatever order and however often, the calls of
    [failJob] and [finishJob] are none, [failJob] alone, [finishJob]
    alone, or [failJob] and then [finishJob]. *)
Theorem processJob_outcomes (ss : list Stimulus) (w : World) (t : nat) (tk : Task)
    (j : BaseJob) :
  tasks w !! t = Some tk -> heap w !! t_job tk = Some j ->
  forallb (for_task t) ss = true ->
  In (outcomes (snd (run (map ODeliver ss) w)))
     [[]; [FailJob (t_job tk)]; [FinishJob (t_job tk)];
      [FailJob (t_job tk); FinishJob (t_job tk)]].
Proof.
  intros Ht Hj Hss.
  destruct (outcomes_of_task ss w t tk j Ht Hj Hss) as (a & b & E & _ & _).
  rewrite E. destruct a, b; simpl; auto.
Qed.

(** The job of the first cycle: its timer fires, and then [process()]
    is fulfilled. *)
Lemma processJob_outcomes_witness :
  outcomes (snd (run (map ODeliver [TimerFires 0; ProcessResolves 0; TimerFires 0])
                     one_job_dispatched))
  = [FailJob 0%nat; FinishJob 0%nat] /\
  In (outcomes (snd (run (map ODeliver [TimerFires 0; ProcessResolves 0; TimerFires 0])
                         one_job_dispatched)))
     [[]; [FailJob 0%nat]; [FinishJob 0%nat]; [FailJob 0%nat; FinishJob 0%nat]].
Proof.
  split; [vm_compute; reflexivity|].
  apply (processJob_outcomes
           [TimerFires 0; ProcessResolves 0; TimerFires 0]
           one_job_dispatched 0 (mkTask 0%nat false true true)
           (newJob 100 Returns Returns Returns)).
  - vm_compute. reflexivity.
  - vm_compute. reflexivity.
  - reflexivity.
Defined.

(** ** Cycles of the worker do not overlap *)

(** Programs that touch neither the poll timer nor [awaiting]. *)
Section Control.
Variable I : World -> Prop.
Hypothesis I_ctl :
  forall w w', awaiting w' = awaiting w ->
               _pollTimer (memq w') = _pollTimer (memq w) -> I w -> I w'.

Lemma keeps_ctl_modify (f : World -> World) :
  (forall w, awaiting (f w) = awaiting w) ->
  (forall w, _pollTimer (memq (f w)) = _pollTimer (memq w)) ->
  keeps I (modify f).
Proof.
  intros Ha Hp. apply keeps_modify. intros w Hw.
  exact (I_ctl w (f w) (Ha w) (Hp w) Hw).
Qed.

Ltac ctl :=
  repeat first
    [ keeps_step
    | match goal with
      | |- keeps _ (modify _) =>
          apply keeps_ctl_modify; intros ?; try destruct (negb _); reflexivity
      end ].

Lemma keeps_ctl_getNextJobs (now : Z) : keeps I (getNextJobs now).
Proof. unfold getNextJobs, set_length. ctl. Qed.

Lemma keeps_ctl_failJob (r : ref) : keeps I (failJob r).
Proof. unfold failJob, deref, raiseEvent, call. ctl. Qed.

Lemma keeps_ctl_failJobForever (r : ref) : keeps I (failJobForever r).
Proof. unfold failJobForever, removeJobFromQueue, deref, raiseEvent, call. ctl. Qed.

Lemma keeps_ctl_finishJob (r : ref) : keeps I (finishJob r).
Proof. unfold finishJob, removeJobFromQueue, deref, raiseEvent, call. ctl. Qed.

Lemma keeps_ctl_processJob (r : ref) : keeps I (processJob r).
Proof.
  unfold processJob, executor, spawn, deref. ctl;
    auto using keeps_ctl_failJob, keeps_ctl_failJobForever.
Qed.

Lemma keeps_ctl_reject (t : nat) : keeps I (reject t).
Proof. unfold reject, update_task. ctl. apply keeps_ctl_failJob. Qed.

Lemma keeps_ctl_timerFires (t : nat) : keeps I (timerFires t).
Proof. unfold timerFires, update_task. ctl. apply keeps_ctl_reject. Qed.

Lemma keeps_ctl_processRejects (t : nat) (e : Error) : keeps I (processRejects t e).
Proof. unfold processRejects, update_task. ctl. apply keeps_ctl_reject. Qed.

Lemma keeps_ctl_processResolves (t : nat) : keeps I (processResolves t).
Proof.
  unfold processResolves, resolve, update_task. ctl;
    auto using keeps_ctl_reject, keeps_ctl_finishJob.
Qed.

Lemma keeps_ctl_exec (op : Op) :
  match op with OWork _ | ODeliver _ => False | _ => True end ->
  keeps I (exec op).
Proof.
  destruct op; intros []; simpl.
  - unfold alloc. ctl.
  - unfold update_job, deref. ctl.
  - unfold update_job, deref. ctl.
  - unfold update_job, deref. ctl.
  - unfold update_job, deref. ctl.
  - unfold cancel, cancelJob, deref. ctl.
  - ctl.
  - ctl.
  - unfold insert. ctl.
  - ctl. apply keeps_ctl_getNextJobs.
  - apply keeps_ctl_processJob.
  - ctl. apply keeps_ctl_failJob.
  - ctl. apply keeps_ctl_failJobForever.
  - ctl. apply keeps_ctl_finishJob.
Qed.
End Control.

Lemma no_poll_while_awaiting_ctl (w w' : World) :
  awaiting w' = awaiting w -> _pollTimer (memq w') = _pollTimer (memq w) ->
  no_poll_while_awaiting w -> no_poll_while_awaiting w'.
Proof. unfold no_poll_while_awaiting. intros -> ->. auto. Qed.

Lemma idle_ctl (w w' : World) :
  awaiting w' = awaiting w -> _pollTimer (memq w') = _pollTimer (memq w) ->
  idle w -> idle w'.
Proof. unfold idle. intros -> ->. auto. Qed.

Lemma keeps_resume : keeps no_poll_while_awaiting resume.
Proof.
  intros w Hw. unfold resume, bind, get, completion, world.
  destruct (awaiting w) as [[first next]|] eqn:E; [|exact Hw].
  destruct (forallb _ _); [|exact Hw].
  left. reflexivity.
Qed.

(** A cycle that starts while none is awaiting. *)
Lemma work_from_rest (now : Z) :
  hoare (fun w => awaiting w = None) (work now)
        (fun _ => no_poll_while_awaiting) (fun _ => no_poll_while_awaiting).
Proof.
  unfold work.
  eapply hoare_bind with (R := fun _ => idle).
  { apply hoare_modify. intros w Hw. split; [exact Hw | reflexivity]. }
  intros u. apply hoare_bind_get. intros w0 Hw0.
  eapply hoare_bind with (R := fun _ => idle).
  { eapply hoare_weaken with (P' := idle) (Q' := fun _ => idle) (E' := fun _ => idle).
    - apply keeps_try_catch; [|intros e; apply keeps_ret].
      apply keeps_bind; [apply keeps_ctl_getNextJobs|].
      intros jobs. apply keeps_bind; [|intros u'; apply keeps_ret].
      apply keeps_forEach. intros r. apply keeps_ctl_processJob. exact idle_ctl.
    - intros w [_ Hw]. exact Hw.
    - auto.
    - intros e w [_ Hw]. right. exact Hw. }
  intros [|].
  - eapply hoare_bind with (R := fun _ => no_poll_while_awaiting).
    + apply hoare_modify. intros w [_ Hw]. right. exact Hw.
    + intros u'. apply keeps_resume.
  - intros w [Ha Hp]. left. exact Ha.
Qed.

Lemma keeps_deliver (s : Stimulus) : keeps no_poll_while_awaiting (deliver s).
Proof.
  destruct s as [t|t|t e|now]; simpl.
  - apply keeps_bind; [|intros u; apply keeps_resume].
    apply keeps_ctl_timerFires. exact no_poll_while_awaiting_ctl.
  - apply keeps_bind; [|intros u; apply keeps_resume].
    apply keeps_ctl_processResolves. exact no_poll_while_awaiting_ctl.
  - apply keeps_bind; [|intros u; apply keeps_resume].
    apply keeps_ctl_processRejects. exact no_poll_while_awaiting_ctl.
  - apply hoare_bind_get. intros w0 Hw0.
    destruct (_pollTimer (memq w0)) eqn:Hp.
    + eapply hoare_weaken; [apply (work_from_rest now) | | auto | auto].
      intros w [-> _]. destruct Hw0 as [Ha|Hf]; [exact Ha | congruence].
    + apply hoare_ret. intros w [_ Hw]. exact Hw.
Qed.

(** X18: the worker starts no cycle while another awaits its job
    processors.  As long as [work] is entered through its poll timer
    alone, no poll timer is pending while a cycle awaits, whatever
    else is done to the queue and the jobs, so that a poll in such a
    state starts nothing. *)
Theorem cycles_do_not_overlap (ops : list Op) (w : World) (now : Z) :
  no_poll_while_awaiting w ->
  forallb no_work ops = true ->
  let w' := fst (run ops w) in
  no_poll_while_awaiting w' /\
  (awaiting w' <> None -> deliver (PollTimerFires now) w' = (Normal tt, w', [])).
Proof.
  intros Hw Hops w'.
  assert (Hinv : no_poll_while_awaiting w').
  { unfold w'. clear w'. revert w Hw.
    induction ops as [|op ops IH]; intros w Hw; [exact Hw|].
    cbn [forallb] in Hops. apply andb_prop in Hops as [Hop Hops].
    cbn [run fst]. apply (IH Hops).
    apply keeps_world; [|exact Hw].
    destruct op; try discriminate Hop;
      try (apply keeps_ctl_exec; [exact no_poll_while_awaiting_ctl | exact Logic.I]).
    apply keeps_deliver. }
  split; [exact Hinv|].
  intros Ha. destruct Hinv as [Hn|Hp]; [contradiction|].
  unfold deliver, bind, get. rewrite Hp. reflexivity.
Qed.

(** One job is dispatched and its [process()] is pending; a second job
    is created and inserted, and polls arrive. *)
Lemma cycles_do_not_overlap_witness :
  let w' := fst (run [ONew 150 Returns Returns Returns; OInsert 1%nat;
                      ODeliver (PollTimerFires 200)] one_job_dispatched) in
  awaiting w' = Some (0, 1)%nat /\
  no_poll_while_awaiting w' /\
  (awaiting w' <> None -> deliver (PollTimerFires 300) w' = (Normal tt, w', [])).
Proof.
  split; [vm_compute; reflexivity|].
  apply (cycles_do_not_overlap
           [ONew 150 Returns Returns Returns; OInsert 1%nat;
            ODeliver (PollTimerFires 200)] one_job_dispatched 300).
  - right. reflexivity.
  - reflexivity.
Defined.

(** ** A cycle ends when its jobs are settled *)

















(** ** The jobs a cycle processes, and their order *)

Lemma processed_app (l1 l2 : list Event) :
  processed (l1 ++ l2) = processed l1 ++ processed l2.
Proof. unfold processed. apply flat_map_app. Qed.

Lemma processed_none (evs : list Event) :
  (forall r, ~ In (Process r) evs) -> processed evs = [].
Proof.
  induction evs as [|ev evs IH]; intros H; [reflexivity|].
  unfold processed in *. cbn [flat_map].
  rewrite IH by (intros r Hr; apply (H r); right; exact Hr).
  destruct ev; try reflexivity. destruct (H r). left. reflexivity.
Qed.

Lemma forEach_processed (l : list ref) (w : World) :
  Forall (fun r => exists j, heap w !! r = Some j /\ isCancelled j = false) l ->
  processed (events (forEach processJob l w))
  = List.filter (fun r => negb (at_ref w triedMaxAttempts true r)) l.
Proof.
  revert w. induction l as [|r l IH]; intros w Hl; [reflexivity|].
  apply Forall_cons in Hl as [(j & Hj & Hc) Hl].
  rewrite forEach_cons.
  assert (E : exists w1 t1,
             processJob r w = (Normal tt, w1, t1) /\ heap w1 = heap w /\
             processed t1 = if triedMaxAttempts j then [] else [r]).
  { destruct (triedMaxAttempts j) eqn:Ht.
    - eexists. eexists. unfold processJob, try_catch.
      rewrite (executor_exhausted w r j Hj Ht), removeJobFromQueue_run.
      repeat split.
    - eexists. eexists. rewrite (processJob_run w r j Hj Ht Hc). repeat split. }
  destruct E as (w1 & t1 & E & Hh & Hp).
  rewrite (bind_normal _ _ w tt w1 t1 E). cbn [events snd].
  rewrite processed_app, Hp, IH by (rewrite Hh; exact Hl).
  cbn [List.filter]. unfold at_ref at 2. rewrite Hj.
  assert (Hf : List.filter (fun r => negb (at_ref w1 triedMaxAttempts true r)) l
             = List.filter (fun r => negb (at_ref w triedMaxAttempts true r)) l).
  { apply filter_ext. intros x. unfold at_ref. rewrite Hh. reflexivity. }
  rewrite Hf. destruct (triedMaxAttempts j); reflexivity.
Qed.

Lemma getNextJobs_pollTimer (b : bool) (now : Z) (w : World) :
  completion (getNextJobs now (with_memq (with_pollTimer b (memq w)) w))
  = completion (getNextJobs now w).
Proof.
  unfold getNextJobs, bind, get, completion. cbn.
  destruct (Num.truthyZ _ && _); [|reflexivity].
  unfold set_length. destruct (_ <? 0); reflexivity.
Qed.

Lemma NoDup_take_list {A} (n : nat) (l : list A) :
  List.NoDup l -> List.NoDup (take n l).
Proof.
  intros H. rewrite <- (take_drop n l) in H.
  exact (NoDup_app_remove_r _ _ H).
Qed.

Lemma getNextJobs_NoDup (now : Z) (w : World) (l : list ref) :
  List.NoDup (_jobs (memq w)) ->
  completion (getNextJobs now w) = Normal l -> List.NoDup l.
Proof.
  intros Hn. unfold getNextJobs, bind, get, completion.
  assert (Hs : List.NoDup (sort (byAvailableAt w)
                        (List.filter (at_ref w (jobReadyForProcessing now) false)
                                     (_jobs (memq w))))).
  { eapply Permutation_NoDup; [apply sort_perm|].
    apply List.NoDup_filter. exact Hn. }
  destruct (Num.truthyZ _ && _); cbn.
  - unfold set_length. destruct (_ <? 0); cbn; [discriminate|].
    intros [= <-]. apply NoDup_take_list. exact Hs.
  - intros [= <-]. exact Hs.
Qed.

(** X20: a cycle of the worker calls [process()] on the jobs that
    [getNextJobs] answers and that have attempts left, on each of them
    and in the order of the answer, and on no other job; when
    [getNextJobs] throws it calls none.  A job that is stored once is
    not processed twice in a cycle. *)
Theorem work_processes_the_next_jobs (now : Z) (w : World) :
  processed (events (work now w)) =
  match completion (getNextJobs now w) with
  | Normal l => List.filter (fun r => negb (at_ref w triedMaxAttempts true r)) l
  | Throw _ => []
  end /\
  (List.NoDup (_jobs (memq w)) -> List.NoDup (processed (events (work now w)))).
Proof.
  assert (E : processed (events (work now w)) =
              match completion (getNextJobs now w) with
              | Normal l =>
                  List.filter (fun r => negb (at_ref w triedMaxAttempts true r)) l
              | Throw _ => []
              end).
  { destruct (work_events now w) as (tail & _ & Hp & Hev).
    set (w' := with_memq (with_pollTimer false (memq w)) w) in *.
    rewrite <- (getNextJobs_pollTimer false now w). fold w'.
    destruct Hev as [[(e & He) E]|(l & Hl & E)]; rewrite E.
    - rewrite He. apply (processed_none tail Hp).
    - rewrite Hl, processed_app, (processed_none tail Hp), app_nil_r.
      apply (forEach_processed l w').
      apply Forall_forall. intros r Hr. apply list_elem_of_In in Hr.
      destruct (getNextJobs_In now w' l r Hl Hr) as [_ (j & Hj & _ & _ & Hc)].
      eauto. }
  split; [exact E|].
  intros Hn. rewrite E.
  destruct (completion (getNextJobs now w)) as [l|e] eqn:Hl; [|constructor].
  apply List.NoDup_filter. exact (getNextJobs_NoDup now w l Hn Hl).
Qed.

(** ** The setters, seen from the worker *)



Lemma update_job_run (r : ref) (f : BaseJob -> BaseJob) (j : BaseJob) (w : World) :
  heap w !! r = Some j ->
  update_job r f w = (Normal tt, with_heap (<[r := f j]> (heap w)) w, []).
Proof.
  intros Hj. unfold update_job. unfold bind at 1.
  rewrite (deref_run r j w Hj). reflexivity.
Qed.

(** X22: [later] delays a stored job and nothing else.  After
    [later(t)], [getNextJobs] does not answer the job before the time
    [t]; from [t] on it does, if the job is not cancelled, its retry
    wait is over and the cap does not cut the answer. *)
Theorem later_delays_the_job (t : Z) (w : World) (r : ref) (j : BaseJob) :
  heap w !! r = Some j ->
  In r (_jobs (memq w)) ->
  let w' := world (update_job r (later t) w) in
  (forall now l, now < t ->
     completion (getNextJobs now w') = Normal l -> ~ In r l) /\
  (forall now l, t <= now ->
     isStillLocked now j = false -> isCancelled j = false ->
     Z.of_nat (length (_jobs (memq w))) <= _concurrency (memq w) ->
     completion (getNextJobs now w') = Normal l -> In r l).
Proof.
  intros Hj Hin w'.
  assert (Hw' : w' = with_heap (<[r := later t j]> (heap w)) w).
  { unfold w'. rewrite (update_job_run r (later t) j w Hj). reflexivity. }
  assert (Hj' : heap w' !! r = Some (later t j)).
  { rewrite Hw'. cbn. apply lookup_insert_eq. }
  assert (Hjobs : _jobs (memq w') = _jobs (memq w)) by (rewrite Hw'; reflexivity).
  assert (Hcap : _concurrency (memq w') = _concurrency (memq w))
    by (rewrite Hw'; reflexivity).
  split.
  - intros now l Hnow Hl Hr.
    destruct (getNextJobs_In now w' l r Hl Hr) as [_ (j' & Hj'' & Ha & _)].
    rewrite Hj' in Hj''. injection Hj'' as <-.
    unfold isAvailable in Ha. cbn in Ha. apply Z.geb_le in Ha. lia.
  - intros now l Hnow Hlk Hc Hcut Hl.
    apply (eligible_stored_offered now w' r (later t j) l Hj').
    + rewrite Hjobs. exact Hin.
    + unfold eligible, isAvailable. cbn.
      unfold isStillLocked in Hlk |- *. unfold isCancelled in Hc |- *. cbn.
      rewrite Hlk, Hc. cbn. rewrite !andb_true_r. apply Z.geb_le. lia.
    + rewrite Hjobs, Hcap. exact Hcut.
    + exact Hl.
Qed.

(** The first of two jobs is put off to the time 500. *)
Lemma later_delays_the_job_witness :
  let w' := world (update_job 0%nat (later 500) two_jobs) in
  (forall now l, now < 500 ->
     completion (getNextJobs now w') = Normal l -> ~ In 0%nat l) /\
  (forall now l, 500 <= now ->
     isStillLocked now (newJob 100 Returns Returns Returns) = false ->
     isCancelled (newJob 100 Returns Returns Returns) = false ->
     Z.of_nat (length (_jobs (memq two_jobs))) <= _concurrency (memq two_jobs) ->
     completion (getNextJobs now w') = Normal l -> In 0%nat l).
Proof.
  apply (later_delays_the_job 500 two_jobs 0%nat (newJob 100 Returns Returns Returns)).
  - vm_compute. reflexivity.
  - vm_compute. left. reflexivity.
Defined.
